(** * The circuit-decomposition scheduler of tutorials/transshipment_problem_oop.py

    A shallow embedding of [schedule], [jobs_from_path], [path_from_schedule]
    and [find_perfect_circuit], and the properties of the natural-language
    specification that concern them.

    Conventions of the embedding:
    - a location is any value with decidable equality, a job is a pair of
      locations (the Python tuples [(A, B)]), a path is a list of locations;
    - Python numbers are modelled as integers extended with [float('inf')],
      the sentinel that [schedule] itself uses;
    - the network graph handed to [schedule] is a record of the three
      capabilities the code uses; a capability either returns or raises;
    - every call to the network is recorded in a log, so that statements
      about which calls are made (and how often) can be written down;
    - Python list objects live in a heap of lists and are named by
      references, so that aliasing and in-place mutation are visible;
    - [schedule] is a machine; a step is the test of the while loop together
      with the computation of the job sequence of the round, or one pass of
      the body of the for loop, or the return. *)

From stdpp Require Import base decidable option numbers list sets.

#[local] Set Warnings "-clear-no-such-hyp".

(** ** Numbers *)

(** Distances: an integer, or [float('inf')]. *)
Inductive number : Type :=
  | Fin (z : Z)
  | Inf.

(** Python's [a < b] on distances. *)
Definition number_ltb (a b : number) : bool :=
  match a, b with
  | Fin x, Fin y => bool_decide (x < y)%Z
  | Fin _, Inf => true
  | Inf, _ => false
  end.

Definition number_leb (a b : number) : bool := negb (number_ltb b a).

Definition is_finite (a : number) : bool :=
  match a with Fin _ => true | Inf => false end.

(** Case analysis on distances. *)
Ltac number_cases :=
  repeat match goal with x : number |- _ => destruct x end;
  unfold number_leb in *; simpl in *;
  repeat case_bool_decide; simpl in *; try done; try lia.

(** ** Exceptions and results *)

Inductive exception : Type :=
  | InvalidLocation
  | NoPath.

Inductive result (A : Type) : Type :=
  | Ok (a : A)
  | Raise (e : exception).
Arguments Ok {A} a.
Arguments Raise {A} e.

(** ** itertools *)

Module itertools.

(** [selections l] lists, for every position [i] of [l], the element at
    [i] together with the other elements in their order. *)
Fixpoint selections {A} (l : list A) : list (A * list A) :=
  match l with
  | [] => []
  | x :: l' => (x, l') :: map (λ s, (s.1, x :: s.2)) (selections l')
  end.

Fixpoint permutations_of_length {A} (n : nat) (l : list A) : list (list A) :=
  match n with
  | 0 => [[]]
  | S n' =>
      flat_map (λ s, map (cons s.1) (permutations_of_length n' s.2))
               (selections l)
  end.

(** [itertools.permutations(l, len(l))]: every ordering of [l], elements
    told apart by position, in lexicographic order of the positions. *)
Definition permutations {A} (l : list A) : list (list A) :=
  permutations_of_length (length l) l.

End itertools.

(** ** References and heaps *)

Abbreviation ref := nat.
Abbreviation Heap Loc := (list (list (Loc * Loc)%type)).

Section scheduler.

Context {Loc : Type} `{EqDecision Loc}.

Local Abbreviation Job := (Loc * Loc)%type.
Local Abbreviation Path := (list Loc).

(** ** The network graph handed to the scheduler *)

(** Modelled from the spec: class [Graph] of module [graph] is not part
    of the sources. The spec's Network Oracle offers
    [shortest_path(A, B) -> (distance, path)], which fails with [NoPath]
    when there is no route, [distance_from_path(path) -> number], and the
    membership test [location in network]. The capabilities are pure: the
    same question gets the same answer. *)
Record Network : Type := {
  shortest_path : Loc → Loc → result (number * Path);
  distance_from_path : Path → result number;
  contains : Loc → bool
}.

(** A call made to the network. *)
Inductive call : Type :=
  | ShortestPath (a b : Loc)
  | DistanceFromPath (p : Path).

(** Computations that call the network: they extend the log of calls and
    return or raise. *)
Definition M (A : Type) : Type := list call → result A * list call.

Definition ret {A} (a : A) : M A := λ log, (Ok a, log).

Definition bind {A B} (m : M A) (k : A → M B) : M B :=
  λ log,
    match m log with
    | (Ok a, log') => k a log'
    | (Raise e, log') => (Raise e, log')
    end.

Definition call_shortest_path (graph : Network) (a b : Loc) : M (number * Path) :=
  λ log, (shortest_path graph a b, log ++ [ShortestPath a b]).

Definition call_distance_from_path (graph : Network) (p : Path) : M number :=
  λ log, (distance_from_path graph p, log ++ [DistanceFromPath p]).

(** ** The auxiliary graph of the circuit finder *)

(** Modelled from the spec: the auxiliary graph [g = Graph()] is an
    instance of the same missing class. It is a dictionary of weighted
    directed edges in insertion order. *)
Definition Graph : Type := list (Job * number).

(** [g[A][B]]: [None] stands for [KeyError]. *)
Fixpoint edge (g : Graph) (a b : Loc) : option number :=
  match g with
  | [] => None
  | (j, d) :: g' => if decide (j = (a, b)) then Some d else edge g' a b
  end.

(** [g.add_edge(A, B, d)]: a present edge gets the new weight and keeps
    its place, a new edge goes last. *)
Fixpoint add_edge (g : Graph) (a b : Loc) (d : number) : Graph :=
  match g with
  | [] => [((a, b), d)]
  | (j, d') :: g' =>
      if decide (j = (a, b)) then ((a, b), d) :: g'
      else (j, d') :: add_edge g' a b d
  end.

(** The targets of the edges that leave [a], in insertion order. *)
Definition successors (g : Graph) (a : Loc) : list Loc :=
  omap (λ e : Job * number, if decide (e.1.1 = a) then Some e.1.2 else None) g.

(** One pass over the successors of the node taken from the queue: a node
    seen for the first time is marked and queued behind the others. A queue
    entry is the walk that reached the node, last node first. *)
Fixpoint discover (walk : Path) (nexts : list Loc)
    (visited : list Loc) (queue : list Path) : list Loc * list Path :=
  match nexts with
  | [] => (visited, queue)
  | n :: nexts' =>
      if decide (n ∈ visited) then discover walk nexts' visited queue
      else discover walk nexts' (visited ++ [n]) (queue ++ [n :: walk])
  end.

Fixpoint bfs_loop (fuel : nat) (g : Graph) (target : Loc)
    (visited : list Loc) (queue : list Path) : Path :=
  match fuel with
  | 0 => []
  | S fuel' =>
      match queue with
      | [] => []
      | [] :: _ => []
      | (node :: before) :: queue' =>
          if decide (node = target) then reverse (node :: before)
          else
            let '(visited', queue'') :=
              discover (node :: before) (successors g node) visited queue' in
            bfs_loop fuel' g target visited' queue''
      end
  end.

(** Modelled from the spec: [g.breadth_first_search(A, B)] returns a pair
    whose second component is the path with the fewest hops from [A] to
    [B], ties broken by discovery order, and the empty path when [B] is
    unreachable. The caller drops the first component; the model returns
    the path. Every node enters the queue at most once, and only the
    source and targets of edges do, which bounds the number of rounds. *)
Definition breadth_first_search (g : Graph) (a b : Loc) : Path :=
  bfs_loop (S (length g)) g b [a] [[a]].

(** ** Helpers of the scheduler *)

(** [jobs_from_path(path)]: the consecutive pairs of [path]. *)
Fixpoint jobs_from_path (path : Path) : list Job :=
  match path with
  | a :: rest =>
      match rest with
      | b :: _ => (a, b) :: jobs_from_path rest
      | [] => []
      end
  | [] => []
  end.

(** The body of the loop of [path_from_schedule]. *)
Definition visit (path : Path) (job : Job) : Path :=
  let '(A, B) := job in
  if decide (last path = Some A) then path ++ [B]
  else path ++ [A; B].

(** [path_from_schedule(jobs, start)]. *)
Definition path_from_schedule (jobs : list Job) (start : Loc) : Path :=
  foldl visit [start] jobs.

(** ** The circuit finder *)

(** Lines 230-235: the loop that fills the auxiliary graph. *)
Fixpoint add_jobs (graph : Network) (jobs : list Job) (g : Graph) : M Graph :=
  match jobs with
  | [] => ret g
  | (A, B) :: jobs' =>
      match edge g A B with
      | Some _ => add_jobs graph jobs' g
      | None =>
          bind (call_shortest_path graph A B)
               (λ dp, add_jobs graph jobs' (add_edge g A B dp.1))
      end
  end.

(** Line 237: [[B for A, B in jobs if A == start]]. *)
Definition new_starts (start : Loc) (jobs : list Job) : list Loc :=
  omap (λ j : Job, if decide (j.1 = start) then Some j.2 else None) jobs.

(** Lines 238-242: the first candidate with a path back to [start]. *)
Fixpoint first_circuit (g : Graph) (start : Loc) (candidates : list Loc) : Path :=
  match candidates with
  | [] => []
  | A :: candidates' =>
      match breadth_first_search g A start with
      | [] => first_circuit g start candidates'
      | p => start :: p
      end
  end.

Definition find_perfect_circuit (graph : Network) (start : Loc)
    (jobs : list Job) : M Path :=
  bind (add_jobs graph jobs [])
       (λ g, ret (first_circuit g start (new_starts start jobs))).

(** ** The permutation evaluator *)

(** Lines 184-189: the loop over the orderings, with the two variables
    [shortest_distance] and [shortest_path] it updates. *)
Fixpoint evaluate (graph : Network) (start : Loc) (perms : list (list Job))
    (shortest_distance : number) (shortest : Path) : M (number * Path) :=
  match perms with
  | [] => ret (shortest_distance, shortest)
  | perm :: perms' =>
      let path := path_from_schedule perm start in
      bind (call_distance_from_path graph path)
           (λ distance,
              if number_ltb distance shortest_distance
              then evaluate graph start perms' distance path
              else evaluate graph start perms' shortest_distance shortest)
  end.

(** Lines 182-190: the fallback, from the initial values [[]] and
    [float('inf')] to [jobs_from_path(shortest_path)]. *)
Definition permutation_fallback (graph : Network) (start : Loc)
    (jobs_to_plan : list Job) : M (list Job) :=
  bind (evaluate graph start (itertools.permutations jobs_to_plan) Inf [])
       (λ best, ret (jobs_from_path best.2)).

(** Lines 178-190: the job sequence of one round of the while loop. *)
Definition job_sequence (graph : Network) (start : Loc)
    (jobs_to_plan : list Job) : M (list Job) :=
  bind (find_perfect_circuit graph start jobs_to_plan)
       (λ circuit_path,
          match circuit_path with
          | _ :: _ => ret (jobs_from_path circuit_path)
          | [] => permutation_fallback graph start jobs_to_plan
          end).

(** ** The heap of list objects *)

(** A reference is an index into the heap, a heap a list of list objects:
    [ref] and [Heap Loc], declared before this section. *)

(** The list object behind a reference. Every reference handed out is
    below the length of the heap. *)
Definition load (h : Heap Loc) (r : ref) : list Job := default [] (h !! r).

(** A new list object; its reference is the old length of the heap. *)
Definition alloc (h : Heap Loc) (l : list Job) : ref * Heap Loc := (length h, h ++ [l]).

(** [l.remove(x)]: the first occurrence of [x] goes. The scheduler calls it
    under the guard [x in l], so [ValueError] cannot arise. *)
Fixpoint list_remove (x : Job) (l : list Job) : list Job :=
  match l with
  | [] => []
  | y :: l' => if decide (y = x) then l' else y :: list_remove x l'
  end.

(** ** The schedule assembler as a machine *)

(** Where control stands in [schedule]. *)
Inductive control : Type :=
  | AtWhile                          (* line 177, before the test *)
  | AtFor (remaining : list Job)     (* line 192, jobs of job_sequence to go *)
  | Returned (r : ref)               (* line 196, the list object returned *)
  | Raised (e : exception).          (* an exception left the function *)

(** The local variables of [schedule] that hold list objects. *)
Record frame : Type := Frame {
  jobs : ref;
  new_schedule : ref;
  jobs_to_plan : ref
}.

(** [rounds] counts the times the body of the while loop was entered; the
    code has no such variable, it is there to state the bound. *)
Record config : Type := Config {
  heap : Heap Loc;
  log : list call;
  rounds : nat;
  pc : control
}.

(** Lines 175-176: [new_schedule = []] and [jobs_to_plan = jobs[:]]. *)
Definition enter (jobs : ref) (h : Heap Loc) (l : list call) : frame * config :=
  let '(new_schedule, h1) := alloc h [] in
  let '(jobs_to_plan, h2) := alloc h1 (load h1 jobs) in
  (Frame jobs new_schedule jobs_to_plan, Config h2 l 0 AtWhile).

(** Lines 193-195: one pass of the body of the for loop. *)
Definition consume (f : frame) (job : Job) (h : Heap Loc) : Heap Loc :=
  if decide (job ∈ load h (jobs_to_plan f))
  then alter (λ l, l ++ [job]) (new_schedule f)
         (alter (list_remove job) (jobs_to_plan f) h)
  else h.

Definition step (graph : Network) (start : Loc) (f : frame) (c : config) : config :=
  match pc c with
  | AtWhile =>
      match load (heap c) (jobs_to_plan f) with
      | [] => Config (heap c) (log c) (rounds c) (Returned (new_schedule f))
      | pending =>
          match job_sequence graph start pending (log c) with
          | (Ok sequence, log') => Config (heap c) log' (S (rounds c)) (AtFor sequence)
          | (Raise e, log') => Config (heap c) log' (S (rounds c)) (Raised e)
          end
      end
  | AtFor [] => Config (heap c) (log c) (rounds c) AtWhile
  | AtFor (job :: remaining) =>
      Config (consume f job (heap c)) (log c) (rounds c) (AtFor remaining)
  | Returned _ | Raised _ => c
  end.

Definition run (graph : Network) (start : Loc) (f : frame) (n : nat)
    (c : config) : config :=
  Nat.iter n (step graph start f) c.

(** [schedule(graph, start, jobs)] after [n] steps, called with the heap
    [h] and the log [l]. *)
Definition schedule (graph : Network) (start : Loc) (jobs : ref)
    (h : Heap Loc) (l : list call) (n : nat) : config :=
  let '(f, c) := enter jobs h l in run graph start f n c.

(** The frame of that call. *)
Definition schedule_frame (jobs : ref) (h : Heap Loc) : frame :=
  (enter jobs h []).1.

Definition final (c : config) : bool :=
  match pc c with
  | Returned _ | Raised _ => true
  | AtWhile | AtFor _ => false
  end.

(** ** The travel path as the specification words it *)

(** The specification's reading of the walk of an ordering (section 4.2):
    when the origin of the next job is not where the walk stands, the
    shortest path of the network from there to the origin is inserted. It is
    kept apart from [path_from_schedule], which is the code. *)
Definition visit_with_connector (graph : Network) (path : Path) (job : Job) : M Path :=
  let '(A, B) := job in
  match last path with
  | Some here =>
      if decide (here = A) then ret (path ++ [B])
      else bind (call_shortest_path graph here A)
                (λ dp, ret (path ++ tail dp.2 ++ [B]))
  | None => ret (path ++ [A; B])
  end.

Fixpoint walk_with_connectors (graph : Network) (jobs : list Job) (path : Path) : M Path :=
  match jobs with
  | [] => ret path
  | job :: jobs' =>
      bind (visit_with_connector graph path job)
           (λ path', walk_with_connectors graph jobs' path')
  end.

Definition path_with_connectors (graph : Network) (jobs : list Job) (start : Loc) : M Path :=
  walk_with_connectors graph jobs [start].

(** The same network with another membership test. *)
Definition with_contains (test : Loc → bool) (graph : Network) : Network :=
  {| shortest_path := shortest_path graph;
     distance_from_path := distance_from_path graph;
     contains := test |}.

(** The call [q] to the network raises [e]. *)
Definition raises (graph : Network) (q : call) (e : exception) : Prop :=
  match q with
  | ShortestPath a b => shortest_path graph a b = Raise e
  | DistanceFromPath p => distance_from_path graph p = Raise e
  end.

(** ** Notions of the statements *)

(** Every hop of [p] is an edge of [g]. *)
Definition hops_in (g : Graph) (p : Path) : Prop :=
  ∀ j : Job, j ∈ jobs_from_path p → j ∈ g.*1.

(** An entry of the queue of the search is a walk from the source [a],
    written backwards. *)
Definition walk_from (g : Graph) (a : Loc) (walk : Path) : Prop :=
  walk ≠ [] ∧ last walk = Some a ∧ hops_in g (reverse walk).

(** There is a walk from [a] to [b] over edges of [g]. *)
Definition reachable (g : Graph) (a b : Loc) : Prop :=
  ∃ p : Path, head p = Some a ∧ last p = Some b ∧ hops_in g p.

(** The state of the search: every queued walk ends at a marked node, a
    marked node is queued or has been handled, and a handled node is not the
    target and has all its successors marked. *)
Definition searching (g : Graph) (a target : Loc) (visited : list Loc)
    (queue : list Path) : Prop :=
  a ∈ visited
  ∧ NoDup visited
  ∧ (∀ v, v ∈ visited → v = a ∨ ∃ u, (u, v) ∈ g.*1)
  ∧ Forall (λ w, ∃ n, head w = Some n ∧ n ∈ visited) queue
  ∧ (∀ v, v ∈ visited →
          (∃ w, w ∈ queue ∧ head w = Some v)
          ∨ (v ≠ target ∧ ∀ s, (v, s) ∈ g.*1 → s ∈ visited)).

(** There is a circuit: a closed walk from [start] with at least one hop,
    every hop the pair of one of the [jobs]. *)
Definition circuit_exists (jobs : list Job) (start : Loc) : Prop :=
  ∃ path : Path,
    head path = Some start ∧ last path = Some start
    ∧ jobs_from_path path ≠ []
    ∧ ∀ job, job ∈ jobs_from_path path → job ∈ jobs.

(** The question put to the network for a job. *)
Definition query (job : Job) : call := ShortestPath job.1 job.2.

(** The answer of the network gives the weight of the edge. *)
Definition weighed (graph : Network) (ed : Job * number) : Prop :=
  ∃ p, shortest_path graph ed.1.1 ed.1.2 = Ok (ed.2, p).

(** The distance the network gives for the walk of an ordering. *)
Definition measured (graph : Network) (start : Loc) (perm : list Job)
    (d : number) : Prop :=
  distance_from_path graph (path_from_schedule perm start) = Ok d.

(** The network never answers [float('inf')] for the distance of a path. *)
Definition finite_distances (graph : Network) : Prop :=
  ∀ path, distance_from_path graph path ≠ Ok Inf.

(** The last call of the log raised [e]. *)
Definition last_call_raised (graph : Network) (l : list call) (e : exception) : Prop :=
  ∃ q, last l = Some q ∧ raises graph q e.

(** The two list objects of a call, [new_schedule] and [jobs_to_plan], as
    a pair of lists, and one pass of the body of the for loop on them. *)
Definition take_job (sp : list Job * list Job) (job : Job) : list Job * list Job :=
  if decide (job ∈ sp.2) then (sp.1 ++ [job], list_remove job sp.2) else sp.

Definition objects (sp : list Job * list Job) : Heap Loc := [sp.1; sp.2].

(** The frame of a call made with the heap [h]. *)
Definition frame_of (jobs : ref) (h : Heap Loc) : frame :=
  Frame jobs (length h) (S (length h)).

(** What holds of every configuration of a call: the caller's heap [h] is
    a prefix of the heap, followed by the two list objects of the call,
    which hold the jobs of [input] between them; the list returned is the
    schedule, and nothing is pending then. *)
Definition assembling (h : Heap Loc) (input : list Job) (c : config) : Prop :=
  ∃ sp, heap c = h ++ objects sp
        ∧ sp.2 ++ sp.1 ≡ₚ input
        ∧ (∀ r, pc c = Returned r → r = length h ∧ sp.2 = []).

End scheduler.

Arguments Network Loc : clear implicits.
Arguments call Loc : clear implicits.
Arguments M Loc A : clear implicits.
Arguments Graph Loc : clear implicits.
Arguments control Loc : clear implicits.
Arguments config Loc : clear implicits.
Arguments frame_of {Loc} jobs h.

(** * Networks of the examples *)

Module Example.

Inductive node : Type := A | B | C.

#[global] Instance node_eq_dec : EqDecision node.
Proof. solve_decision. Defined.

(** The number of hops of a path between different nodes. *)
Fixpoint hops (p : list node) : Z :=
  match p with
  | a :: rest =>
      match rest with
      | b :: _ => ((if decide (a = b) then 0 else 1) + hops rest)%Z
      | [] => 0%Z
      end
  | [] => 0%Z
  end.

(** Example 1 of the specification: [A], [B] and [C], fully connected with
    edges of weight one. *)
Definition triangle : Network node :=
  {| shortest_path := λ a b,
       if decide (a = b) then Ok (Fin 0, [a]) else Ok (Fin 1, [a; b]);
     distance_from_path := λ p, Ok (Fin (hops p));
     contains := λ _, true |}.

Definition legs : list (node * node) := [(A, B); (A, C); (B, A); (C, A)].

(** A ring of one-way edges of weight one: [A -> B -> C -> A]. *)
Definition next (a : node) : node :=
  match a with A => B | B => C | C => A end.

Definition ring_path (a b : node) : list node :=
  if decide (a = b) then [a]
  else if decide (next a = b) then [a; b]
  else [a; next a; b].

Definition ring : Network node :=
  {| shortest_path := λ a b,
       Ok (Fin (Z.of_nat (length (ring_path a b)) - 1), ring_path a b);
     distance_from_path := λ p,
       Ok (Fin (foldr (λ j d, Z.of_nat (length (ring_path j.1 j.2)) - 1 + d)%Z
                      0%Z (jobs_from_path p)));
     contains := λ _, true |}.

(** One edge of weight one, [A -> B], and a node [C] that no edge touches.
    A path with a hop that no route backs has the distance
    [float('inf')]. *)
Definition one_way_hop (j : node * node) : number :=
  match j with
  | (A, B) => Fin 1
  | (A, A) | (B, B) | (C, C) => Fin 0
  | _ => Inf
  end.

Definition add (a b : number) : number :=
  match a, b with
  | Fin x, Fin y => Fin (x + y)
  | _, _ => Inf
  end.

Definition one_way : Network node :=
  {| shortest_path := λ a b,
       match one_way_hop (a, b) with
       | Fin 0 => Ok (Fin 0, [a])
       | Fin d => Ok (Fin d, [a; b])
       | Inf => Raise NoPath
       end;
     distance_from_path := λ p,
       Ok (foldr (λ j d, add (one_way_hop j) d) (Fin 0) (jobs_from_path p));
     contains := λ _, true |}.

(** The two nodes [A] and [B] joined both ways; [C] is no location of the
    network, and a question about it fails with [InvalidLocation]. *)
Definition located (a : node) : bool :=
  match a with C => false | _ => true end.

Definition pair_of_nodes : Network node :=
  {| shortest_path := λ a b,
       if located a && located b
       then (if decide (a = b) then Ok (Fin 0, [a]) else Ok (Fin 1, [a; b]))
       else Raise InvalidLocation;
     distance_from_path := λ p,
       if forallb located p then Ok (Fin (hops p)) else Raise InvalidLocation;
     contains := located |}.

(** The heap of a caller that holds one list, the jobs. *)
Definition only (jobs : list (node * node)) : Heap node := [jobs].

End Example.

(** * Properties *)

(** ** Orderings enumerated by [itertools.permutations] *)

Section permutations.

Context {A : Type}.
Implicit Types (l : list A) (x : A).

Lemma selections_perm l x rest :
  (x, rest) ∈ itertools.selections l → l ≡ₚ x :: rest.
Proof.
  revert x rest. induction l as [|y l IH]; intros x rest; simpl.
  - by intros ?%elem_of_nil.
  - rewrite elem_of_cons, list_elem_of_fmap.
    intros [[= -> ->]|[[z zs] [[= -> ->] Hin]]]; [done|].
    simpl. rewrite (IH _ _ Hin). apply Permutation_swap.
Qed.

Lemma selections_elem l x :
  x ∈ l → ∃ rest, (x, rest) ∈ itertools.selections l.
Proof.
  induction l as [|y l IH]; simpl.
  - by intros ?%elem_of_nil.
  - intros [->|Hin]%elem_of_cons.
    + exists l. apply elem_of_cons. by left.
    + destruct (IH Hin) as [rest Hrest]. exists (y :: rest).
      apply elem_of_cons. right. apply list_elem_of_fmap.
      by exists (x, rest).
Qed.

Lemma elem_of_flat_map {B} (f : A → list B) l (y : B) :
  y ∈ flat_map f l ↔ ∃ x, x ∈ l ∧ y ∈ f x.
Proof.
  rewrite list_elem_of_In, in_flat_map.
  by setoid_rewrite list_elem_of_In.
Qed.

End permutations.

Section permutations_of_length.

Context {A : Type}.
Implicit Types (l p : list A) (x : A).

Lemma permutations_of_length_sound n l p :
  length l = n → p ∈ itertools.permutations_of_length n l → p ≡ₚ l.
Proof.
  revert l p. induction n as [|n IH]; intros l p Hlen; simpl.
  - intros ->%list_elem_of_singleton. apply nil_length_inv in Hlen. by subst.
  - intros [[x rest] [Hsel Hp]]%elem_of_flat_map. simpl in Hp.
    apply list_elem_of_fmap in Hp as [q [-> Hq]].
    pose proof (selections_perm _ _ _ Hsel) as Hl.
    rewrite Hl. constructor. apply IH; [|done].
    apply Permutation_length in Hl. simpl in Hl. lia.
Qed.

Lemma permutations_of_length_complete n l p :
  length l = n → p ≡ₚ l → p ∈ itertools.permutations_of_length n l.
Proof.
  revert l p. induction n as [|n IH]; intros l p Hlen Hp; simpl.
  - apply nil_length_inv in Hlen. subst l.
    apply Permutation_nil_r in Hp. subst p. by apply list_elem_of_singleton.
  - destruct p as [|x q].
    { apply Permutation_length in Hp. simpl in Hp. lia. }
    assert (x ∈ l) as Hx by (rewrite <-Hp; apply elem_of_cons; by left).
    destruct (selections_elem _ _ Hx) as [rest Hsel].
    pose proof (selections_perm _ _ _ Hsel) as Hl.
    apply elem_of_flat_map. exists (x, rest). split; [done|]. simpl.
    apply list_elem_of_fmap. exists q. split; [done|].
    apply IH.
    + apply Permutation_length in Hl. simpl in Hl. lia.
    + rewrite Hl in Hp. by apply Permutation_cons_inv in Hp.
Qed.

Lemma permutations_sound l p : p ∈ itertools.permutations l → p ≡ₚ l.
Proof. by apply permutations_of_length_sound. Qed.

Lemma permutations_complete l p : p ≡ₚ l → p ∈ itertools.permutations l.
Proof. by apply permutations_of_length_complete. Qed.

Lemma permutations_first l : ∃ rest, itertools.permutations l = l :: rest.
Proof.
  unfold itertools.permutations. induction l as [|x l [rest IH]]; simpl.
  - by exists [].
  - rewrite IH. simpl. by eexists.
Qed.

End permutations_of_length.

(** ** Paths and their jobs *)

Section paths.

Context {Loc : Type} `{EqDecision Loc}.
Local Abbreviation Job := (Loc * Loc)%type.
Local Abbreviation Path := (list Loc).
Implicit Types (start a b : Loc) (p path : Path) (job : Job) (js : list Job).

Lemma jobs_from_path_snoc p x :
  jobs_from_path (p ++ [x]) =
  jobs_from_path p ++ match last p with Some y => [(y, x)] | None => [] end.
Proof.
  induction p as [|a p IH]; [done|].
  destruct p as [|b p]; [done|].
  change (jobs_from_path ((a :: b :: p) ++ [x]))
    with ((a, b) :: jobs_from_path ((b :: p) ++ [x])).
  rewrite IH. by rewrite last_cons_cons.
Qed.

Lemma jobs_from_path_cons a p :
  jobs_from_path (a :: p) =
  match head p with Some b => [(a, b)] | None => [] end ++ jobs_from_path p.
Proof. by destruct p. Qed.

(** A leg of the walk: the hop to the origin when it is not where the walk
    stands, then the job itself. *)
Lemma visit_jobs p A B :
  jobs_from_path (visit p (A, B)) =
  jobs_from_path p
  ++ match last p with
     | Some y => if decide (y = A) then [] else [(y, A)]
     | None => []
     end
  ++ [(A, B)].
Proof.
  unfold visit. destruct (last p) as [y|] eqn:Hlast.
  - destruct (decide (y = A)) as [->|Hne].
    + rewrite decide_True by done. by rewrite jobs_from_path_snoc, Hlast.
    + rewrite decide_False by congruence.
      change [A; B] with ([A] ++ [B]). rewrite (assoc_L (++)).
      rewrite jobs_from_path_snoc, last_snoc, jobs_from_path_snoc, Hlast.
      by rewrite <-(assoc_L (++)).
  - rewrite decide_False by done. apply last_None in Hlast as ->. done.
Qed.

Lemma visit_extends p job : ∃ more, visit p job = p ++ more ∧ more ≠ [].
Proof.
  destruct job as [A B]. unfold visit. case_decide; eexists; split; done.
Qed.

Lemma foldl_visit_extends js p : ∃ more, foldl visit p js = p ++ more.
Proof.
  revert p. induction js as [|job js IH]; intros p; cbn [foldl].
  - exists []. by rewrite app_nil_r.
  - destruct (visit_extends p job) as (m1 & -> & _).
    destruct (IH (p ++ m1)) as [m2 ->]. exists (m1 ++ m2).
    by rewrite (assoc_L (++)).
Qed.

(** The walk starts at [start]. *)
Lemma path_from_schedule_head js start :
  head (path_from_schedule js start) = Some start.
Proof.
  unfold path_from_schedule. by destruct (foldl_visit_extends js [start]) as [m ->].
Qed.

(** The jobs of an ordering are hops of its walk, in their order. *)
Lemma foldl_visit_jobs js p :
  ∃ more, jobs_from_path (foldl visit p js) = jobs_from_path p ++ more
          ∧ js `sublist_of` more.
Proof.
  revert p. induction js as [|[A B] js IH]; intros p; cbn [foldl].
  - exists []. by rewrite app_nil_r.
  - destruct (IH (visit p (A, B))) as (more & -> & Hsub).
    rewrite visit_jobs. eexists. split.
    + by rewrite <-!(assoc_L (++)).
    + apply sublist_inserts_l. simpl. by constructor.
Qed.

Lemma path_from_schedule_jobs js start :
  js `sublist_of` jobs_from_path (path_from_schedule js start).
Proof.
  unfold path_from_schedule.
  by destruct (foldl_visit_jobs js [start]) as (more & -> & Hsub).
Qed.

End paths.

(** ** The breadth-first search of the auxiliary graph *)

Section search.

Context {Loc : Type} `{EqDecision Loc}.
Local Abbreviation Job := (Loc * Loc)%type.
Local Abbreviation Path := (list Loc).
Implicit Types (g : Graph Loc) (a b n : Loc) (p walk : Path)
  (visited : list Loc) (queue : list Path).

Lemma successors_edge g a b : b ∈ successors g a ↔ (a, b) ∈ g.*1.
Proof.
  unfold successors. rewrite list_elem_of_omap, list_elem_of_fmap. split.
  - intros ([[x y] d] & Hin & Heq). simpl in Heq. case_decide; [|done].
    simplify_eq. by exists ((a, b), d).
  - intros ([[x y] d] & Heq & Hin). simpl in Heq. injection Heq as -> ->.
    exists ((x, y), d). split; [done|]. simpl. by rewrite decide_True.
Qed.

Lemma walk_from_step g a n node before :
  walk_from g a (node :: before) → (node, n) ∈ g.*1 →
  walk_from g a (n :: node :: before).
Proof.
  intros (_ & Hlast & Hhops) Hedge. split; [done|]. split.
  - by rewrite last_cons_cons.
  - intros j. rewrite (reverse_cons _ n), jobs_from_path_snoc, last_reverse.
    simpl. rewrite elem_of_app, list_elem_of_singleton.
    intros [Hj| ->]; [by apply Hhops|done].
Qed.

Lemma discover_walks g a node before nexts visited queue :
  walk_from g a (node :: before) →
  (∀ n, n ∈ nexts → (node, n) ∈ g.*1) →
  Forall (walk_from g a) queue →
  Forall (walk_from g a) (discover (node :: before) nexts visited queue).2.
Proof.
  intros Hwalk. revert visited queue.
  induction nexts as [|n nexts IH]; intros visited queue Hnexts Hqueue; simpl.
  - done.
  - case_decide.
    + apply IH; [|done]. intros m Hm. apply Hnexts. by right.
    + apply IH.
      * intros m Hm. apply Hnexts. by right.
      * apply Forall_app. split; [done|]. apply Forall_singleton.
        apply walk_from_step; [done|]. apply Hnexts. by left.
Qed.

Lemma bfs_loop_sound fuel g a target visited queue :
  Forall (walk_from g a) queue →
  bfs_loop fuel g target visited queue ≠ [] →
  let p := bfs_loop fuel g target visited queue in
  head p = Some a ∧ last p = Some target ∧ hops_in g p.
Proof.
  revert visited queue.
  induction fuel as [|fuel IH]; intros visited queue Hqueue; simpl; [done|].
  destruct queue as [|[|node before] queue]; [done..|].
  apply Forall_cons in Hqueue as [Hwalk Hqueue].
  case_decide as Hnode.
  - intros _. destruct Hwalk as (_ & Hlast & Hhops). subst node.
    split; [by rewrite head_reverse|]. split; [|done].
    by rewrite last_reverse.
  - pose proof (discover_walks g a node before (successors g node) visited queue
                  Hwalk) as Hnext.
    destruct (discover (node :: before) (successors g node) visited queue)
      as [visited' queue'] eqn:Hd.
    apply IH. apply Hnext; [|done]. intros n. by rewrite successors_edge.
Qed.

(** A path returned by the search leads from [a] to [b] over edges of [g]. *)
Lemma breadth_first_search_sound g a b :
  breadth_first_search g a b ≠ [] →
  head (breadth_first_search g a b) = Some a
  ∧ last (breadth_first_search g a b) = Some b
  ∧ hops_in g (breadth_first_search g a b).
Proof.
  apply (bfs_loop_sound _ g a). apply Forall_singleton.
  split; [done|]. split; [done|]. by intros j ?%elem_of_nil.
Qed.

(** *** The search finds a path when there is one *)

Lemma discover_spec walk nexts visited queue :
  ∃ new,
    discover walk nexts visited queue
    = (visited ++ new, queue ++ ((λ n, n :: walk) <$> new))
    ∧ NoDup new
    ∧ (∀ n, n ∈ new → n ∈ nexts ∧ n ∉ visited)
    ∧ (∀ n, n ∈ nexts → n ∈ visited ∨ n ∈ new).
Proof.
  revert visited queue.
  induction nexts as [|n nexts IH]; intros visited queue; simpl.
  - exists []. rewrite !app_nil_r. split_and!; [done|constructor|set_solver..].
  - case_decide as Hn.
    + destruct (IH visited queue) as (new & -> & Hnodup & Hnew & Hall).
      exists new. split_and!; [done|done|set_solver|set_solver].
    + destruct (IH (visited ++ [n]) (queue ++ [n :: walk]))
        as (new & -> & Hnodup & Hnew & Hall).
      exists (n :: new). split_and!.
      * by rewrite <-!(assoc_L (++)).
      * constructor; [|done]. intros Hin. apply Hnew in Hin. set_solver.
      * set_solver.
      * set_solver.
Qed.

(** A set of nodes that holds [a] and the successors of its members, and
    not [target], shows that [target] cannot be reached. *)
Lemma closed_unreachable g a target visited :
  a ∈ visited →
  (∀ v, v ∈ visited → v ≠ target ∧ ∀ s, (v, s) ∈ g.*1 → s ∈ visited) →
  ¬ reachable g a target.
Proof.
  intros Ha Hclosed (p & Hhead & Hlast & Hhops).
  assert (∀ q x, x ∈ visited → hops_in g (x :: q) →
                 ∀ y, last (x :: q) = Some y → y ∈ visited) as Hwalk.
  { induction q as [|z q IH]; intros x Hx Hq y.
    - by intros [= <-].
    - rewrite last_cons_cons. apply IH.
      + apply (Hclosed x Hx). apply Hq. by left.
      + intros j Hj. apply Hq. by right. }
  destruct p as [|x p]; [done|]. simpl in Hhead. simplify_eq.
  by destruct (Hclosed target (Hwalk p a Ha Hhops target Hlast)).
Qed.

Lemma bfs_loop_complete fuel g a target visited queue :
  searching g a target visited queue →
  length queue + (S (length g) - length visited) ≤ fuel →
  bfs_loop fuel g target visited queue = [] →
  ¬ reachable g a target.
Proof.
  assert (∀ visited, searching g a target visited [] → ¬ reachable g a target)
    as Hend.
  { intros vs (Ha & _ & _ & _ & Hdone). apply (closed_unreachable g a target vs Ha).
    intros v Hv. destruct (Hdone v Hv) as [(w & Hw & _)|?]; [|done].
    by apply elem_of_nil in Hw. }
  revert visited queue.
  induction fuel as [|fuel IH]; intros visited queue Hinv Hfuel; simpl.
  - intros _. destruct queue; [by apply (Hend visited)|simpl in Hfuel; lia].
  - destruct queue as [|[|node before] queue]; [intros _; by apply (Hend visited)| |].
    + destruct Hinv as (_ & _ & _ & Hq & _).
      apply Forall_cons in Hq as [(n & Hn & _) _]. done.
    + case_decide as Hnode.
      { intros Hrev. apply (f_equal length) in Hrev.
        by rewrite length_reverse in Hrev. }
      destruct (discover_spec (node :: before) (successors g node) visited queue)
        as (new & -> & Hnodup & Hnew & Hall).
      destruct Hinv as (Ha & Hvis & Huniv & Hq & Hdone).
      apply Forall_cons in Hq as [_ Hq].
      assert (NoDup (visited ++ new)) as Hvis'.
      { apply NoDup_app. split_and!; [done| |done].
        intros x Hx Hx'. by destruct (Hnew x Hx'). }
      assert (∀ v, v ∈ visited ++ new → v = a ∨ ∃ u, (u, v) ∈ g.*1) as Huniv'.
      { intros v [Hv|Hv]%elem_of_app; [by apply Huniv|].
        right. exists node. apply successors_edge. by apply Hnew. }
      assert (length (visited ++ new) ≤ S (length g)) as Hbound.
      { replace (S (length g)) with (length (a :: g.*1.*2))
          by (simpl; by rewrite !length_fmap).
        apply submseteq_length, NoDup_submseteq; [done|].
        intros v [->|[u Hu]]%Huniv'; [by left|]. right.
        apply list_elem_of_fmap. by exists (u, v). }
      apply IH.
      * split_and!; [set_solver|done|done| |].
        -- apply Forall_app. split.
           ++ eapply Forall_impl; [exact Hq|]. intros w (n & Hn & Hin).
              exists n. split; [done|set_solver].
           ++ apply Forall_fmap, Forall_forall. intros n Hn. exists n.
              split; [done|set_solver].
        -- intros v [Hv|Hv]%elem_of_app.
           ++ destruct (Hdone v Hv) as [(w & Hw & Hhead)|[Hne Hsucc]].
              ** apply elem_of_cons in Hw as [->|Hw].
                 --- simpl in Hhead. simplify_eq. right. split; [done|].
                     intros s Hs%successors_edge.
                     apply elem_of_app. by apply Hall.
                 --- left. exists w. split; [set_solver|done].
              ** right. split; [done|]. intros s Hs. apply elem_of_app.
                 left. by apply Hsucc.
           ++ left. exists (v :: node :: before). split; [|done].
              apply elem_of_app. right. apply list_elem_of_fmap. by exists v.
      * rewrite !length_app, length_fmap in *. simpl in Hfuel. lia.
Qed.

Lemma breadth_first_search_complete g a b :
  reachable g a b → breadth_first_search g a b ≠ [].
Proof.
  intros Hreach Hnil. revert Hreach.
  apply (bfs_loop_complete (S (length g)) g a b [a] [[a]]); [|simpl; lia|done].
  split_and!.
  - by left.
  - apply NoDup_singleton.
  - intros v ->%list_elem_of_singleton. by left.
  - apply Forall_singleton. exists a. split; [done|by left].
  - intros v ->%list_elem_of_singleton. left. exists [a]. split; [by left|done].
Qed.

End search.

(** ** The circuit finder *)

Section circuit.

Context {Loc : Type} `{EqDecision Loc}.
Local Abbreviation Job := (Loc * Loc)%type.
Local Abbreviation Path := (list Loc).
Implicit Types (graph : Network Loc) (g : Graph Loc) (start a b : Loc)
  (l : list (call Loc)) (jobs asked : list Job) (job : Job).

Lemma edge_None g a b : edge g a b = None ↔ (a, b) ∉ g.*1.
Proof.
  induction g as [|[j d] g IH]; simpl.
  - split; [intros _ ?%elem_of_nil|]; done.
  - rewrite not_elem_of_cons. case_decide as Hj.
    + split; [done|]. intros [? _]. by subst.
    + rewrite IH. split; [|by intros [_ ?]]. intros Hnot. split; [|done].
      intros Heq. by apply Hj.
Qed.

Lemma add_edge_new g a b d :
  (a, b) ∉ g.*1 → add_edge g a b d = g ++ [((a, b), d)].
Proof.
  induction g as [|[j d'] g IH]; simpl; [done|].
  rewrite not_elem_of_cons. intros [Hne Hnot].
  rewrite decide_False by done. by rewrite IH.
Qed.

(** What the loop over the jobs does from a graph [g] onwards: it asks the
    network about the jobs that are new, each once, and adds their edges. *)
Lemma add_jobs_spec graph jobs g l :
  ∃ asked,
    (add_jobs graph jobs g l).2 = l ++ (query <$> asked)
    ∧ (NoDup g.*1 → NoDup (g.*1 ++ asked))
    ∧ asked ⊆ jobs
    ∧ match (add_jobs graph jobs g l).1 with
      | Ok g' =>
          ∃ new, g' = g ++ new ∧ new.*1 = asked
                 ∧ jobs ⊆ g'.*1 ∧ Forall (weighed graph) new
      | Raise e =>
          ∃ job, last asked = Some job
                 ∧ shortest_path graph job.1 job.2 = Raise e
      end.
Proof.
  revert g l. induction jobs as [|[A B] jobs IH]; intros g l; simpl.
  - exists []. rewrite !app_nil_r. split_and!; [done..|].
    exists []. rewrite app_nil_r. split_and!; [done| done| |done].
    by intros j ?%elem_of_nil.
  - destruct (edge g A B) as [d|] eqn:Hedge.
    + assert ((A, B) ∈ g.*1) as Hin.
      { destruct (decide ((A, B) ∈ g.*1)) as [|Hnot]; [done|].
        apply edge_None in Hnot. congruence. }
      destruct (IH g l) as (asked & Hlog & Hnodup & Hsub & Hres).
      exists asked. split_and!; [done|done|set_solver|].
      destruct (add_jobs graph jobs g l).1 as [g'|e]; [|done].
      destruct Hres as (new & -> & Hnew & Hall & Hw).
      exists new. split_and!; [done..| |done].
      rewrite fmap_app in *. set_solver.
    + apply edge_None in Hedge. unfold bind, call_shortest_path.
      destruct (shortest_path graph A B) as [[d p]|e] eqn:Hsp; simpl.
      * rewrite add_edge_new by done.
        destruct (IH (g ++ [((A, B), d)]) (l ++ [ShortestPath A B]))
          as (asked & Hlog & Hnodup & Hsub & Hres).
        exists ((A, B) :: asked). split_and!.
        -- rewrite Hlog. by rewrite <-(assoc_L (++)).
        -- intros Hg. rewrite fmap_app, <-(assoc_L (++)) in Hnodup.
           apply Hnodup. apply NoDup_app. split_and!; [done| |apply NoDup_singleton].
           intros j Hj ->%list_elem_of_singleton. done.
        -- set_solver.
        -- destruct (add_jobs graph jobs _ _).1 as [g'|e].
           ++ destruct Hres as (new & -> & Hnew & Hall & Hw).
              exists (((A, B), d) :: new). split_and!.
              ** by rewrite <-(assoc_L (++)).
              ** by rewrite fmap_cons, Hnew.
              ** rewrite !fmap_app in *. simpl in *. set_solver.
              ** constructor; [by exists p|done].
           ++ destruct Hres as (job & Hlast & Hraise).
              exists job. split; [|done].
              destruct asked; [done|]. by rewrite last_cons_cons.
      * exists [(A, B)]. split_and!; [done| |set_solver|by exists (A, B)].
        intros Hg. apply NoDup_app. split_and!; [done| |apply NoDup_singleton].
        intros j Hj ->%list_elem_of_singleton. done.
Qed.

Lemma new_starts_job start jobs a :
  a ∈ new_starts start jobs ↔ (start, a) ∈ jobs.
Proof.
  unfold new_starts. rewrite list_elem_of_omap. split.
  - intros ([x y] & Hin & Heq). simpl in Heq. case_decide; [|done].
    by simplify_eq.
  - intros Hin. exists (start, a). split; [done|]. simpl.
    by rewrite decide_True.
Qed.

Lemma first_circuit_sound g start jobs candidates :
  g.*1 ⊆ jobs →
  (∀ a, a ∈ candidates → (start, a) ∈ jobs) →
  first_circuit g start candidates ≠ [] →
  head (first_circuit g start candidates) = Some start
  ∧ last (first_circuit g start candidates) = Some start
  ∧ (∀ job, job ∈ jobs_from_path (first_circuit g start candidates) → job ∈ jobs).
Proof.
  intros Hg. induction candidates as [|a candidates IH]; intros Hcand; simpl; [done|].
  destruct (breadth_first_search g a start) as [|n p] eqn:Hbfs.
  - apply IH. intros c Hc. apply Hcand. by right.
  - intros _.
    destruct (breadth_first_search_sound g a start) as (Hhead & Hlast & Hhops);
      [by rewrite Hbfs|].
    rewrite Hbfs in Hhead, Hlast, Hhops. simpl in Hhead. simplify_eq.
    split; [done|]. split; [by rewrite last_cons_cons|].
    intros job. rewrite jobs_from_path_cons. simpl.
    intros [->|Hjob]%elem_of_cons.
    + apply Hcand. by left.
    + apply Hg, Hhops, Hjob.
Qed.

Lemma first_circuit_none g start candidates :
  (∀ a, a ∈ candidates → breadth_first_search g a start = []) →
  first_circuit g start candidates = [].
Proof.
  induction candidates as [|a candidates IH]; intros Hnone; simpl; [done|].
  rewrite (Hnone a) by (by left). apply IH. intros c Hc. apply Hnone. by right.
Qed.

End circuit.

(** ** The order of distances *)

Lemma number_leb_refl (a : number) : number_leb a a = true.
Proof. number_cases. Qed.

Lemma number_ltb_leb (a b : number) : number_ltb a b = true → number_leb a b = true.
Proof. number_cases. Qed.

Lemma number_ltb_trans (a b c : number) :
  number_ltb a b = true → number_ltb b c = true → number_ltb a c = true.
Proof. number_cases. Qed.

Lemma number_ltb_leb_trans (a b c : number) :
  number_ltb a b = true → number_ltb c b = false → number_ltb a c = true.
Proof. number_cases. Qed.

Lemma number_leb_Inf (a : number) : number_leb a Inf = true.
Proof. number_cases. Qed.

Lemma number_ltb_Inf (a : number) : number_ltb a Inf = is_finite a.
Proof. number_cases. Qed.

(** ** The permutation evaluator *)

Section evaluator.

Context {Loc : Type} `{EqDecision Loc}.
Local Abbreviation Job := (Loc * Loc)%type.
Local Abbreviation Path := (list Loc).
Implicit Types (graph : Network Loc) (start : Loc) (l : list (call Loc))
  (perm : list Job) (perms : list (list Job)) (d : number) (p : Path).

(** The loop keeps the first ordering among the shortest, unless none is
    shorter than the distance it starts with. *)
Lemma evaluate_spec graph start perms sd sp l d p l' :
  evaluate graph start perms sd sp l = (Ok (d, p), l') →
  l' = l ++ ((λ perm, DistanceFromPath (path_from_schedule perm start)) <$> perms)
  ∧ Forall (λ perm, ∃ d', measured graph start perm d'
                          ∧ number_leb d d' = true) perms
  ∧ (d = sd ∧ p = sp
     ∨ ∃ before perm after,
         perms = before ++ perm :: after
         ∧ p = path_from_schedule perm start
         ∧ measured graph start perm d
         ∧ number_ltb d sd = true
         ∧ Forall (λ q, ∃ d', measured graph start q d'
                              ∧ number_ltb d d' = true) before).
Proof.
  revert sd sp l. induction perms as [|perm perms IH]; intros sd sp l; simpl.
  - unfold ret. intros [= -> -> ->]. rewrite app_nil_r. split_and!; [done..|].
    by left.
  - unfold bind, call_distance_from_path.
    destruct (distance_from_path graph (path_from_schedule perm start))
      as [dist|e] eqn:Hdist; [|done].
    destruct (number_ltb dist sd) eqn:Hlt; intros Heval;
      apply IH in Heval as (-> & Hall & Hsel).
    + split; [by rewrite <-(assoc_L (++))|].
      destruct Hsel as [[-> ->]|(before & q & after & -> & -> & Hq & Hlt' & Hbefore)].
      * split.
        { constructor; [|done]. exists dist. split; [done|].
          apply number_leb_refl. }
        right. exists [], perm, perms. split_and!; done.
      * split.
        { constructor; [|done]. exists dist. split; [done|].
          by apply number_ltb_leb. }
        right. exists (perm :: before), q, after. split_and!; [done..| |].
        -- by apply (number_ltb_trans _ dist).
        -- constructor; [|done]. by exists dist.
    + split; [by rewrite <-(assoc_L (++))|].
      destruct Hsel as [[-> ->]|(before & q & after & -> & -> & Hq & Hlt' & Hbefore)].
      * split; [|by left].
        constructor; [|done]. exists dist. split; [done|].
        unfold number_leb. by rewrite Hlt.
      * assert (number_ltb d dist = true) as Hd
          by by apply (number_ltb_leb_trans _ sd).
        split.
        { constructor; [|done]. exists dist. split; [done|].
          by apply number_ltb_leb. }
        right. exists (perm :: before), q, after. split_and!; [done..|].
        constructor; [|done]. by exists dist.
Qed.

(** With a distance below [float('inf')] for the first ordering, an
    ordering is selected. *)
Lemma evaluate_selects graph start perm perms l d p l' d0 :
  evaluate graph start (perm :: perms) Inf [] l = (Ok (d, p), l') →
  measured graph start perm d0 → is_finite d0 = true →
  ∃ q, q ∈ perm :: perms ∧ p = path_from_schedule q start.
Proof.
  intros Heval Hd0 Hfin.
  apply evaluate_spec in Heval as (_ & Hall & Hsel).
  destruct Hsel as [[-> ->]|(before & q & after & Heq & -> & _)].
  - apply Forall_cons in Hall as [(d' & Hd' & Hle) _].
    unfold measured in *. rewrite Hd0 in Hd'. simplify_eq.
    by destruct d'.
  - exists q. split; [|done]. rewrite Heq. apply elem_of_app. right. by left.
Qed.

End evaluator.

(** ** The schedule assembler *)

Section assembler.

Context {Loc : Type} `{EqDecision Loc}.
Local Abbreviation Job := (Loc * Loc)%type.
Local Abbreviation Path := (list Loc).
Implicit Types (graph : Network Loc) (start : Loc) (h : Heap Loc)
  (l : list (call Loc)) (c : config Loc) (job : Job)
  (seq input : list Job) (sp : list Job * list Job).

Lemma list_remove_perm job (pool : list Job) :
  job ∈ pool → pool ≡ₚ job :: list_remove job pool.
Proof.
  induction pool as [|x pool IH]; simpl.
  - by intros ?%elem_of_nil.
  - case_decide as Hx; [by subst|].
    intros [->|Hin]%elem_of_cons; [done|].
    rewrite (IH Hin) at 1. apply Permutation_swap.
Qed.

Lemma load_new_schedule h sp : load (h ++ objects sp) (length h) = sp.1.
Proof. unfold load, objects. by rewrite list_lookup_middle. Qed.

Lemma load_jobs_to_plan h sp : load (h ++ objects sp) (S (length h)) = sp.2.
Proof.
  unfold load. rewrite lookup_app_r by lia.
  by replace (S (length h) - length h) with 1 by lia.
Qed.

Lemma load_caller h sp (r : ref) : r < length h → (h ++ objects sp) !! r = h !! r.
Proof. apply lookup_app_l. Qed.

Lemma consume_take (jobs : ref) h sp job :
  consume (frame_of jobs h) job (h ++ objects sp) = h ++ objects (take_job sp job).
Proof.
  unfold consume, take_job. simpl. rewrite load_jobs_to_plan.
  case_decide; [|done].
  rewrite !alter_app_r_alt by lia.
  replace (S (length h) - length h) with 1 by lia.
  by replace (length h - length h) with 0 by lia.
Qed.

Lemma enter_objects (jobs : ref) h l :
  enter jobs h l
  = (frame_of jobs h, Config (h ++ objects ([], load h jobs)) l 0 AtWhile).
Proof.
  unfold enter, alloc, frame_of, objects. simpl.
  rewrite length_app, <-(assoc_L (++)). simpl.
  replace (length h + 1) with (S (length h)) by lia.
  do 3 f_equal. unfold load.
  destruct (decide (jobs < length h)) as [Hlt|Hge].
  - by rewrite lookup_app_l.
  - rewrite lookup_app_r by lia. rewrite (lookup_ge_None_2 h) by lia.
    by destruct (jobs - length h) as [|[|?]].
Qed.

Lemma schedule_run graph start (jobs : ref) h l n :
  schedule graph start jobs h l n
  = run graph start (frame_of jobs h) n
        (Config (h ++ objects ([], load h jobs)) l 0 AtWhile).
Proof. unfold schedule. by rewrite enter_objects. Qed.

Lemma schedule_frame_of (jobs : ref) h : schedule_frame jobs h = frame_of jobs h.
Proof. unfold schedule_frame. by rewrite enter_objects. Qed.

Lemma take_job_conserves sp job : (take_job sp job).2 ++ (take_job sp job).1 ≡ₚ sp.2 ++ sp.1.
Proof.
  unfold take_job. case_decide as Hin; [|done]. simpl.
  rewrite (list_remove_perm _ _ Hin) at 2. rewrite (assoc_L (++)).
  by rewrite <-Permutation_cons_append.
Qed.

Lemma step_assembling graph start (jobs : ref) h input c :
  assembling h input c → assembling h input (step graph start (frame_of jobs h) c).
Proof.
  intros ([sched pool] & Hheap & Hperm & Hret). unfold step.
  destruct (pc c) as [|[|job remaining]|r|e] eqn:Hpc.
  - simpl. rewrite Hheap, load_jobs_to_plan. simpl in *.
    destruct pool as [|x pool].
    + exists (sched, []). simpl. split_and!; [done..|]. by intros r [= <-].
    + destruct (job_sequence graph start (x :: pool) (log c)) as [[seq|e] l'];
        exists (sched, x :: pool); simpl; split_and!; done.
  - by exists (sched, pool).
  - exists (take_job (sched, pool) job). simpl. rewrite Hheap, consume_take.
    split_and!; [done| |done]. by rewrite take_job_conserves.
  - exists (sched, pool). rewrite Hpc. done.
  - exists (sched, pool). rewrite Hpc. done.
Qed.

Lemma run_assembling graph start (jobs : ref) h input n c :
  assembling h input c → assembling h input (run graph start (frame_of jobs h) n c).
Proof.
  intros Hc. induction n as [|n IH]; [done|]. by apply step_assembling.
Qed.

Lemma schedule_assembling graph start (jobs : ref) h l n :
  assembling h (load h jobs) (schedule graph start jobs h l n).
Proof.
  rewrite schedule_run. apply run_assembling.
  exists ([], load h jobs). simpl. split_and!; [done| |done].
  by rewrite app_nil_r.
Qed.

End assembler.

(** ** Rounds of the while loop *)

Section rounds.

Context {Loc : Type} `{EqDecision Loc}.
Local Abbreviation Job := (Loc * Loc)%type.
Local Abbreviation Path := (list Loc).
Implicit Types (graph : Network Loc) (start : Loc) (h : Heap Loc)
  (l : list (call Loc)) (c : config Loc) (job : Job)
  (seq pool : list Job) (sp : list Job * list Job).

Lemma run_plus graph start f n m c :
  run graph start f (n + m) c = run graph start f m (run graph start f n c).
Proof.
  unfold run. rewrite Nat.add_comm. apply Nat.iter_add.
Qed.

Lemma run_S graph start f n c :
  run graph start f (S n) c = run graph start f n (step graph start f c).
Proof. unfold run. apply Nat.iter_succ_r. Qed.

Lemma final_step graph start f c : final c = true → step graph start f c = c.
Proof. unfold final, step. by destruct (pc c). Qed.

Lemma final_run graph start f n c : final c = true → run graph start f n c = c.
Proof.
  intros Hc. induction n as [|n IH]; [done|].
  by rewrite run_S, final_step.
Qed.

Lemma step_rounds graph start f c : rounds c ≤ rounds (step graph start f c).
Proof.
  unfold step. destruct (pc c) as [|[|job remaining]|r|e]; simpl; try lia.
  destruct (load (heap c) (jobs_to_plan f)); simpl; [lia|].
  destruct (job_sequence _ _ _ _) as [[seq|e] l']; simpl; lia.
Qed.

Lemma run_rounds graph start f n m c :
  n ≤ m → rounds (run graph start f n c) ≤ rounds (run graph start f m c).
Proof.
  intros Hnm. replace m with (n + (m - n)) by lia. rewrite run_plus.
  generalize (run graph start f n c) as c'. intros c'.
  induction (m - n) as [|k IH]; [done|].
  etrans; [apply IH|]. apply step_rounds.
Qed.

(** The for loop, from its first pass to the return to the while test. *)
Lemma run_for graph start (jobs : ref) h sp seq l k :
  run graph start (frame_of jobs h) (S (length seq))
      (Config (h ++ objects sp) l k (AtFor seq))
  = Config (h ++ objects (foldl take_job sp seq)) l k AtWhile.
Proof.
  revert sp. induction seq as [|job seq IH]; intros sp; [done|].
  rewrite run_S. unfold step at 1. cbn [pc heap log rounds].
  rewrite consume_take. apply IH.
Qed.

(** One round of the while loop that does not raise. *)
Lemma run_round graph start (jobs : ref) h sp seq l l' k :
  sp.2 ≠ [] →
  job_sequence graph start sp.2 l = (Ok seq, l') →
  run graph start (frame_of jobs h) (S (S (length seq)))
      (Config (h ++ objects sp) l k AtWhile)
  = Config (h ++ objects (foldl take_job sp seq)) l' (S k) AtWhile.
Proof.
  intros Hpool Hseq. rewrite run_S. unfold step at 1. cbn [pc heap log rounds].
  cbn [jobs_to_plan frame_of]. rewrite load_jobs_to_plan.
  destruct sp.2 as [|x pool] eqn:Hsp; [done|]. rewrite Hseq.
  apply run_for.
Qed.

(** A round that raises. *)
Lemma run_raise graph start (jobs : ref) h sp e l l' k :
  sp.2 ≠ [] →
  job_sequence graph start sp.2 l = (Raise e, l') →
  step graph start (frame_of jobs h) (Config (h ++ objects sp) l k AtWhile)
  = Config (h ++ objects sp) l' (S k) (Raised e).
Proof.
  intros Hpool Hseq. unfold step. cbn [pc heap log rounds].
  cbn [jobs_to_plan frame_of]. rewrite load_jobs_to_plan.
  destruct sp.2 as [|x pool] eqn:Hsp; [done|]. by rewrite Hseq.
Qed.

(** The test that ends the loop. *)
Lemma run_return graph start (jobs : ref) h sp l k :
  sp.2 = [] →
  step graph start (frame_of jobs h) (Config (h ++ objects sp) l k AtWhile)
  = Config (h ++ objects sp) l k (Returned (length h)).
Proof.
  intros Hpool. unfold step. cbn [pc heap log rounds].
  cbn [jobs_to_plan frame_of]. rewrite load_jobs_to_plan.
  by rewrite Hpool.
Qed.

(** The pool never grows in the for loop. *)
Lemma take_job_length sp job : length (take_job sp job).2 ≤ length sp.2.
Proof.
  unfold take_job. case_decide as Hin; [|done]. simpl.
  apply list_remove_perm, Permutation_length in Hin. simpl in Hin. lia.
Qed.

Lemma foldl_take_job_length seq sp : length (foldl take_job sp seq).2 ≤ length sp.2.
Proof.
  revert sp. induction seq as [|job seq IH]; intros sp; cbn [foldl]; [done|].
  etrans; [apply IH|]. apply take_job_length.
Qed.

(** A job of the sequence that is pending makes the pool shrink. *)
Lemma foldl_take_job_shrinks seq sp job :
  job ∈ seq → job ∈ sp.2 → length (foldl take_job sp seq).2 < length sp.2.
Proof.
  revert sp. induction seq as [|x seq IH]; intros sp Hseq Hpool; cbn [foldl].
  - by apply elem_of_nil in Hseq.
  - destruct (decide (x ∈ sp.2)) as [Hx|Hx].
    + pose proof (foldl_take_job_length seq (take_job sp x)) as Hle.
      unfold take_job in *. rewrite decide_True in * by done. simpl in *.
      apply list_remove_perm, Permutation_length in Hx. simpl in Hx. lia.
    + unfold take_job. rewrite decide_False by done.
      apply IH; [|done]. apply elem_of_cons in Hseq as [->|Hseq]; done.
Qed.

(** A sequence that holds every pending job, as often as it is pending,
    empties the pool. *)
Lemma foldl_take_job_all seq sp : sp.2 ⊆+ seq → (foldl take_job sp seq).2 = [].
Proof.
  revert sp. induction seq as [|x seq IH]; intros [sched pool]; cbn [foldl]; simpl.
  - by intros ->%submseteq_nil_r.
  - intros Hsub. apply IH. unfold take_job. simpl.
    apply submseteq_cons_r in Hsub as [Hsub|(pool' & Hperm & Hsub)].
    + case_decide as Hx; [|done]. simpl.
      apply list_remove_perm in Hx.
      transitivity (x :: list_remove x pool); [by apply submseteq_cons|].
      by rewrite <-Hx.
    + assert (x ∈ pool) as Hx by (rewrite Hperm; by left).
      rewrite decide_True by done. simpl.
      apply list_remove_perm in Hx. rewrite Hx in Hperm.
      apply Permutation_cons_inv in Hperm. by rewrite Hperm.
Qed.

End rounds.

(** ** Progress of a round *)

Section progress.

Context {Loc : Type} `{EqDecision Loc}.
Local Abbreviation Job := (Loc * Loc)%type.
Local Abbreviation Path := (list Loc).
Implicit Types (graph : Network Loc) (start : Loc) (h : Heap Loc)
  (l : list (call Loc)) (c : config Loc) (job : Job)
  (seq pool jobs : list Job) (sp : list Job * list Job) (path : Path).

Lemma jobs_from_path_nonempty a b path : jobs_from_path (a :: b :: path) ≠ [].
Proof. done. Qed.

Lemma first_circuit_shape (g : Graph Loc) start candidates :
  first_circuit g start candidates = []
  ∨ ∃ a path, first_circuit g start candidates = start :: a :: path.
Proof.
  induction candidates as [|a candidates IH]; simpl; [by left|].
  destruct (breadth_first_search g a start) as [|n p]; [done|].
  right. by exists n, p.
Qed.

(** A circuit is a closed walk from [start] over pending jobs, and it has
    a first hop. *)
Lemma find_perfect_circuit_sound graph start jobs l path l' :
  find_perfect_circuit graph start jobs l = (Ok path, l') → path ≠ [] →
  head path = Some start ∧ last path = Some start
  ∧ (∀ job, job ∈ jobs_from_path path → job ∈ jobs)
  ∧ jobs_from_path path ≠ [].
Proof.
  unfold find_perfect_circuit, bind, ret. intros Hfind Hpath.
  destruct (add_jobs_spec graph jobs [] l) as (asked & _ & _ & Hsub & Hres).
  destruct (add_jobs graph jobs [] l) as [[g|e] l1]; [|done].
  simpl in Hres. destruct Hres as (new & Hg & Hnew & _). simpl in Hg. subst new.
  injection Hfind as <- <-.
  destruct (first_circuit_sound g start jobs (new_starts start jobs))
    as (Hhead & Hlast & Hjobs); [by rewrite Hnew| |done|].
  { intros a. by rewrite new_starts_job. }
  split_and!; [done..|].
  by destruct (first_circuit_shape g start (new_starts start jobs))
    as [Hnil|(a & p & ->)].
Qed.

(** The sequence of the fallback holds every pending job, as often as it is
    pending, when an ordering has a distance below [float('inf')]. *)
Lemma permutation_fallback_all graph start pool l seq l' :
  finite_distances graph →
  permutation_fallback graph start pool l = (Ok seq, l') → pool ⊆+ seq.
Proof.
  unfold permutation_fallback, bind, ret. intros Hfin Hfall.
  destruct (evaluate graph start (itertools.permutations pool) Inf [] l)
    as [[[d p]|e] l1] eqn:Heval; [|done].
  injection Hfall as <- <-. simpl.
  destruct (permutations_first pool) as [rest Hperms]. rewrite Hperms in Heval.
  pose proof Heval as (_ & Hall & _)%evaluate_spec.
  apply Forall_cons in Hall as [(d0 & Hd0 & _) _].
  destruct (evaluate_selects _ _ _ _ _ _ _ _ d0 Heval Hd0) as (q & Hq & ->).
  { destruct d0; [done|]. by apply Hfin in Hd0. }
  rewrite <-Hperms in Hq. apply permutations_sound in Hq.
  rewrite <-Hq. apply sublist_submseteq, path_from_schedule_jobs.
Qed.

(** Some job of the sequence of a round is pending. *)
Lemma job_sequence_progress graph start pool l seq l' :
  finite_distances graph → pool ≠ [] →
  job_sequence graph start pool l = (Ok seq, l') →
  ∃ job, job ∈ seq ∧ job ∈ pool.
Proof.
  unfold job_sequence, bind, ret. intros Hfin Hpool Hseq.
  destruct (find_perfect_circuit graph start pool l) as [[path|e] l1] eqn:Hfind;
    [|done].
  destruct path as [|x path].
  - apply permutation_fallback_all in Hseq; [|done].
    destruct pool as [|job pool]; [done|]. exists job. split; [|by left].
    apply (elem_of_submseteq _ _ _ (list_elem_of_here job pool) Hseq).
  - injection Hseq as Hs _.
    apply find_perfect_circuit_sound in Hfind as (_ & _ & Hjobs & Hne); [|done].
    destruct seq as [|job seq]; [by destruct Hne|].
    exists job. split; [by left|]. apply Hjobs.
    replace (jobs_from_path (x :: path)) with (job :: seq) by exact (eq_sym Hs).
    by left.
Qed.

(** From the while test, with distances below [float('inf')], the machine
    reaches a final configuration within as many rounds as jobs are pending. *)
Lemma run_terminates graph start (jobs : ref) h :
  finite_distances graph →
  ∀ m sp l k, length sp.2 ≤ m →
    ∃ n, final (run graph start (frame_of jobs h) n
                  (Config (h ++ objects sp) l k AtWhile)) = true
         ∧ rounds (run graph start (frame_of jobs h) n
                     (Config (h ++ objects sp) l k AtWhile)) ≤ k + m.
Proof.
  intros Hfin m. induction m as [|m IH]; intros sp l k Hlen.
  - exists 1. unfold run. simpl Nat.iter. rewrite run_return.
    + simpl. split; [done|lia].
    + apply nil_length_inv. lia.
  - destruct (decide (sp.2 = [])) as [Hnil|Hpool].
    { exists 1. unfold run. simpl Nat.iter. rewrite run_return by done.
      simpl. split; [done|lia]. }
    destruct (job_sequence graph start sp.2 l) as [[seq|e] l'] eqn:Hseq.
    + destruct (job_sequence_progress _ _ _ _ _ _ Hfin Hpool Hseq)
        as (job & Hjob & Hpending).
      pose proof (foldl_take_job_shrinks seq sp job Hjob Hpending) as Hshrink.
      destruct (IH (foldl take_job sp seq) l' (S k)) as (n & Hfinal & Hrounds);
        [lia|].
      exists (S (S (length seq)) + n).
      rewrite run_plus, (run_round _ _ _ _ _ seq l l') by done.
      split; [done|lia].
    + exists 1. unfold run. simpl Nat.iter.
      rewrite (run_raise _ _ _ _ _ e l l') by done. simpl. split; [done|lia].
Qed.

End progress.

(** ** Failures of the network *)

Section failures.

Context {Loc : Type} `{EqDecision Loc}.
Local Abbreviation Job := (Loc * Loc)%type.
Local Abbreviation Path := (list Loc).
Implicit Types (graph : Network Loc) (start : Loc) (h : Heap Loc)
  (l : list (call Loc)) (c : config Loc) (job : Job)
  (seq pool jobs : list Job) (path : Path) (e : exception).

Lemma add_jobs_raise graph jobs l e l' :
  add_jobs graph jobs [] l = (Raise e, l') → last_call_raised graph l' e.
Proof.
  intros Hadd.
  destruct (add_jobs_spec graph jobs [] l) as (asked & Hlog & _ & _ & Hres).
  rewrite Hadd in Hlog, Hres. simpl in *. destruct Hres as (job & Hlast & Hraise).
  exists (query job). split; [|done]. subst l'.
  apply last_Some in Hlast as [asked' ->].
  rewrite fmap_app, (assoc_L (++)).
  change (query <$> [job]) with [query job]. by rewrite last_snoc.
Qed.

Lemma evaluate_raise graph start perms sd sp l e l' :
  evaluate graph start perms sd sp l = (Raise e, l') → last_call_raised graph l' e.
Proof.
  revert sd sp l. induction perms as [|perm perms IH]; intros sd sp l; simpl; [done|].
  unfold bind, call_distance_from_path.
  destruct (distance_from_path graph (path_from_schedule perm start))
    as [dist|e'] eqn:Hdist.
  - destruct (number_ltb dist sd); apply IH.
  - intros [= -> <-]. eexists. by rewrite last_snoc.
Qed.

Lemma job_sequence_raise graph start pool l e l' :
  job_sequence graph start pool l = (Raise e, l') → last_call_raised graph l' e.
Proof.
  unfold job_sequence, find_perfect_circuit, permutation_fallback, bind, ret.
  destruct (add_jobs graph pool [] l) as [[g|e'] l1] eqn:Hadd.
  - destruct (first_circuit g start (new_starts start pool)); [|done].
    destruct (evaluate graph start (itertools.permutations pool) Inf [] l1)
      as [[best|e'] l2] eqn:Heval; [done|].
    intros [= -> <-]. by apply evaluate_raise in Heval.
  - intros [= -> <-]. by apply add_jobs_raise in Hadd.
Qed.

Lemma step_raise graph start f c e :
  (pc c = Raised e → last_call_raised graph (log c) e) →
  pc (step graph start f c) = Raised e →
  last_call_raised graph (log (step graph start f c)) e.
Proof.
  unfold step. destruct (pc c) as [|[|job remaining]|r|e'] eqn:Hpc; simpl;
    [|done|done|by rewrite Hpc|by rewrite Hpc].
  destruct (load (heap c) (jobs_to_plan f)) as [|x pool]; [done|].
  destruct (job_sequence graph start (x :: pool) (log c)) as [[seq|e'] l'] eqn:Hseq;
    simpl; [done|].
  intros _ [= ->]. by apply job_sequence_raise in Hseq.
Qed.

Lemma run_raise_last graph start f n c e :
  pc c = AtWhile →
  pc (run graph start f n c) = Raised e →
  last_call_raised graph (log (run graph start f n c)) e.
Proof.
  intros Hc. revert e. induction n as [|n IH]; intros e; simpl.
  - by rewrite Hc.
  - apply step_raise. apply IH.
Qed.

(** The membership test of the network plays no part. *)
Lemma add_jobs_contains test graph jobs (g : Graph Loc) l :
  add_jobs (with_contains test graph) jobs g l = add_jobs graph jobs g l.
Proof.
  revert g l. induction jobs as [|[A B] jobs IH]; intros g l; simpl; [done|].
  destruct (edge g A B); [done|]. unfold bind, call_shortest_path. simpl.
  destruct (shortest_path graph A B); [|done]. apply IH.
Qed.

Lemma evaluate_contains test graph start perms sd sp l :
  evaluate (with_contains test graph) start perms sd sp l
  = evaluate graph start perms sd sp l.
Proof.
  revert sd sp l. induction perms as [|perm perms IH]; intros sd sp l; simpl; [done|].
  unfold bind, call_distance_from_path. simpl.
  destruct (distance_from_path graph _); [|done].
  destruct (number_ltb _ _); apply IH.
Qed.

Lemma job_sequence_contains test graph start pool l :
  job_sequence (with_contains test graph) start pool l
  = job_sequence graph start pool l.
Proof.
  unfold job_sequence, find_perfect_circuit, permutation_fallback, bind.
  rewrite add_jobs_contains. destruct (add_jobs graph pool [] l) as [[g|e] l1]; [|done].
  simpl. destruct (first_circuit g start (new_starts start pool)); [|done].
  by rewrite evaluate_contains.
Qed.

Lemma step_contains test graph start f c :
  step (with_contains test graph) start f c = step graph start f c.
Proof.
  unfold step. destruct (pc c) as [|[|job remaining]|r|e]; [|done..].
  destruct (load (heap c) (jobs_to_plan f)) as [|x pool]; [done|].
  by rewrite job_sequence_contains.
Qed.

Lemma run_contains test graph start f n c :
  run (with_contains test graph) start f n c = run graph start f n c.
Proof.
  induction n as [|n IH]; [done|]. simpl. by rewrite IH, step_contains.
Qed.

End failures.

(** * The claims of the specification *)

Section claims.

Context {Loc : Type} `{EqDecision Loc}.
Local Abbreviation Job := (Loc * Loc)%type.
Local Abbreviation Path := (list Loc).
Implicit Types (graph : Network Loc) (start : Loc) (h : Heap Loc)
  (l : list (call Loc)) (c : config Loc) (job : Job)
  (seq pending jobs : list Job) (path : Path) (e : exception).

(** C1, as amended. After any number of steps of [schedule], that is at
    every test of the while loop and between the passes of the for loop, the
    pending jobs ([jobs_to_plan]) and the schedule built so far
    ([new_schedule]) hold together exactly the input jobs, as multisets; the
    list that is returned is a permutation of the input; and the two lists
    have no job in common when no job occurs twice in the input. *)
Theorem schedule_conserves_jobs graph start (jobs : ref) h l n :
  let f := schedule_frame jobs h in
  let c := schedule graph start jobs h l n in
  load (heap c) (jobs_to_plan f) ++ load (heap c) (new_schedule f) ≡ₚ load h jobs
  ∧ (∀ r, pc c = Returned r → load (heap c) r ≡ₚ load h jobs)
  ∧ (NoDup (load h jobs) →
     ∀ job, job ∈ load (heap c) (jobs_to_plan f) →
            job ∉ load (heap c) (new_schedule f)).
Proof.
  intros f c. subst f c. rewrite schedule_frame_of.
  destruct (schedule_assembling graph start jobs h l n) as (sp & -> & Hperm & Hret).
  cbn [jobs_to_plan new_schedule frame_of].
  rewrite load_jobs_to_plan, load_new_schedule. split_and!.
  - done.
  - intros r Hr. destruct (Hret r Hr) as [-> Hnil].
    rewrite load_new_schedule. by rewrite Hnil in Hperm.
  - intros Hnodup job Hpool Hsched. rewrite <-Hperm in Hnodup.
    apply NoDup_app in Hnodup as (_ & Hdisjoint & _). by apply (Hdisjoint job).
Qed.

(** C4. A non-empty path returned by [find_perfect_circuit] starts and ends
    at [start], and each of its hops is the (origin, destination) pair of a
    pending job. *)
Theorem perfect_circuit_is_closed_walk graph start jobs l path l' :
  find_perfect_circuit graph start jobs l = (Ok path, l') → path ≠ [] →
  head path = Some start ∧ last path = Some start
  ∧ ∀ job, job ∈ jobs_from_path path → job ∈ jobs.
Proof.
  intros Hfind Hpath.
  by destruct (find_perfect_circuit_sound _ _ _ _ _ _ Hfind Hpath) as (? & ? & ? & _).
Qed.

(** What the fallback yields in every case: either no ordering is selected
    and the path stays empty, the distance kept being [float('inf')], or the
    jobs of the path of the first ordering, in the order of
    [itertools.permutations], with the least distance, every ordering
    before it being strictly longer. *)
Theorem fallback_selects_first_shortest graph start pending l seq l' :
  permutation_fallback graph start pending l = (Ok seq, l') →
  ∃ d p,
    seq = jobs_from_path p
    ∧ (∀ perm, perm ≡ₚ pending →
         ∃ d', distance_from_path graph (path_from_schedule perm start) = Ok d'
               ∧ number_leb d d' = true)
    ∧ (d = Inf ∧ p = []
       ∨ ∃ before perm after,
           itertools.permutations pending = before ++ perm :: after
           ∧ p = path_from_schedule perm start
           ∧ distance_from_path graph p = Ok d
           ∧ ∀ q, q ∈ before →
               ∃ d', distance_from_path graph (path_from_schedule q start) = Ok d'
                     ∧ number_ltb d d' = true).
Proof.
  unfold permutation_fallback, bind, ret. intros Hfall.
  destruct (evaluate graph start (itertools.permutations pending) Inf [] l)
    as [[[d p]|e] l1] eqn:Heval; [|done].
  injection Hfall as <- <-. exists d, p.
  apply evaluate_spec in Heval as (_ & Hall & Hsel).
  split; [done|]. split.
  - intros perm Hperm%permutations_complete.
    by apply (proj1 (Forall_forall _ _) Hall).
  - destruct Hsel as [[-> ->]|(before & perm & after & Hperms & -> & Hd & _ & Hbefore)].
    + by left.
    + right. exists before, perm, after. split_and!; [done..|].
      intros q Hq. by apply (proj1 (Forall_forall _ _) Hbefore).
Qed.

(** C6, as amended. [path_from_schedule] starts the path at [start] and,
    for each job in turn, appends the origin of the job when it is not the
    last location of the path, then the destination. It asks the network
    nothing, and every location of the path is [start] or an endpoint of a
    job: no node of a connecting route is inserted. *)
Theorem path_from_schedule_appends_origin jobs start :
  path_from_schedule [] start = [start]
  ∧ (∀ A B,
       path_from_schedule (jobs ++ [(A, B)]) start
       = path_from_schedule jobs start
         ++ (if decide (last (path_from_schedule jobs start) = Some A)
             then [B] else [A; B]))
  ∧ (∀ n, n ∈ path_from_schedule jobs start →
          n = start ∨ ∃ job, job ∈ jobs ∧ (n = job.1 ∨ n = job.2)).
Proof.
  split; [done|]. split.
  - intros A B. unfold path_from_schedule. rewrite foldl_app. simpl.
    by case_decide.
  - unfold path_from_schedule.
    cut (∀ p n, n ∈ foldl visit p jobs →
                n ∈ p ∨ ∃ job, job ∈ jobs ∧ (n = job.1 ∨ n = job.2)).
    { intros Hcut n Hn. destruct (Hcut _ _ Hn) as [->%list_elem_of_singleton|?];
        [by left|by right]. }
    induction jobs as [|[A B] jobs IH]; intros p n; cbn [foldl]; [by left|].
    intros [Hn|(job & Hjob & Hends)]%IH.
    + unfold visit in Hn. case_decide;
        apply elem_of_app in Hn as [?|Hn]; [by left| |by left|].
      * apply list_elem_of_singleton in Hn as ->.
        right. exists (A, B). split; [by left|by right].
      * right. exists (A, B). split; [by left|].
        apply elem_of_cons in Hn as [->|Hn]; [by left|].
        apply list_elem_of_singleton in Hn as ->. by right.
    + right. exists job. split; [by right|done].
Qed.

(** C8. The circuit finder asks the network for the shortest path of
    pairs of pending jobs, no pair twice, and makes no other call; when no
    call raises, the auxiliary graph has exactly one edge per distinct pair
    of the pending jobs, the pairs that were asked for, each weighted by the
    distance the network returned. *)
Theorem auxiliary_graph_edges graph start jobs l :
  ∃ asked,
    NoDup asked ∧ asked ⊆ jobs
    ∧ (find_perfect_circuit graph start jobs l).2
      = l ++ (query <$> asked)
    ∧ match (add_jobs graph jobs [] l).1 with
      | Ok g =>
          g.*1 = asked ∧ jobs ⊆ asked
          ∧ Forall (λ ed : Job * number,
                      ∃ p, shortest_path graph ed.1.1 ed.1.2 = Ok (ed.2, p)
                           ∧ edge g ed.1.1 ed.1.2 = Some ed.2) g
      | Raise e =>
          ∃ job, last asked = Some job
                 ∧ shortest_path graph job.1 job.2 = Raise e
      end.
Proof.
  destruct (add_jobs_spec graph jobs [] l) as (asked & Hlog & Hnodup & Hsub & Hres).
  exists asked. split_and!.
  - apply (Hnodup (NoDup_nil_2)).
  - done.
  - rewrite <-Hlog. unfold find_perfect_circuit, bind, ret.
    by destruct (add_jobs graph jobs [] l) as [[g|e] l1].
  - destruct (add_jobs graph jobs [] l).1 as [g|e]; [|done].
    destruct Hres as (new & Hg & Hnew & Hall & Hw). simpl in Hg. subst new.
    split_and!; [done|by rewrite <-Hnew|].
    assert (NoDup g.*1) as Hg by (rewrite Hnew; apply (Hnodup (NoDup_nil_2))).
    apply Forall_forall. intros [[a b] d] Hin.
    destruct (proj1 (Forall_forall _ _) Hw _ Hin) as [p Hp]. exists p.
    split; [done|]. simpl. clear -Hg Hin.
    induction g as [|[j d'] g IH]; [by apply elem_of_nil in Hin|].
    rewrite fmap_cons in Hg. apply NoDup_cons in Hg as [Hj Hg]. simpl.
    apply elem_of_cons in Hin as [[= <- <-]|Hin].
    + by rewrite decide_True.
    + rewrite decide_False; [by apply IH|].
      intros ->. apply Hj. apply list_elem_of_fmap. by exists ((a, b), d).
Qed.

(** C9. [schedule] works on a copy of the list it is given: at every step
    the list objects the caller holds, the list of jobs among them, are what
    they were at the call. *)
Theorem schedule_keeps_callers_lists graph start (jobs : ref) h l n :
  let c := schedule graph start jobs h l n in
  take (length h) (heap c) = h
  ∧ (∀ r input, h !! r = Some input → heap c !! r = Some input)
  ∧ load (heap c) jobs = load h jobs.
Proof.
  intros c. subst c.
  destruct (schedule_assembling graph start jobs h l n)
    as ([sched pool] & -> & Hperm & _).
  split; [by rewrite take_app_length|]. split.
  - intros r input Hr. rewrite lookup_app_l; [done|]. by apply lookup_lt_Some in Hr.
  - unfold load in *. destruct (decide (jobs < length h)) as [Hlt|Hge].
    + by rewrite lookup_app_l.
    + rewrite (lookup_ge_None_2 h) in * by lia. simpl in Hperm.
      apply Permutation_nil_r, app_eq_nil in Hperm as [-> ->].
      rewrite lookup_app_r by lia. unfold objects. simpl.
      by destruct (jobs - length h) as [|[|?]].
Qed.

(** C10, as amended. When no call to the network raises while the
    auxiliary graph is built, and no circuit exists, in particular when no
    pending job leaves [start], or when the search finds no path back to
    [start] from the destination of any job that leaves it,
    [find_perfect_circuit] returns the empty list, and the round of
    [schedule] goes on with the permutation fallback. *)
Theorem no_circuit_returns_empty_path graph start jobs l (g : Graph Loc) l' :
  add_jobs graph jobs [] l = (Ok g, l') →
  ¬ circuit_exists jobs start
  ∨ (∀ job, job ∈ jobs → job.1 ≠ start)
  ∨ (∀ job, job ∈ jobs → job.1 = start →
            breadth_first_search g job.2 start = []) →
  find_perfect_circuit graph start jobs l = (Ok [], l')
  ∧ job_sequence graph start jobs l = permutation_fallback graph start jobs l'.
Proof.
  intros Hadd Hnone.
  assert (find_perfect_circuit graph start jobs l = (Ok [], l')) as Hfind.
  { destruct Hnone as [Hnone|[Hnone|Hnone]].
    - destruct (find_perfect_circuit graph start jobs l) as [[path|e] l1] eqn:Hfind.
      + pose proof Hfind as Hsame. revert Hsame.
        unfold find_perfect_circuit, bind, ret. rewrite Hadd. intros [= <- <-].
        destruct (first_circuit g start (new_starts start jobs)) as [|x path] eqn:Hc;
          [done|].
        destruct Hnone. exists (x :: path).
        apply find_perfect_circuit_sound in Hfind; [|done]. naive_solver.
      + revert Hfind. unfold find_perfect_circuit, bind, ret. by rewrite Hadd.
    - unfold find_perfect_circuit, bind, ret. rewrite Hadd.
      rewrite first_circuit_none; [done|].
      intros a Ha%new_starts_job. by destruct (Hnone (start, a)).
    - unfold find_perfect_circuit, bind, ret. rewrite Hadd.
      rewrite first_circuit_none; [done|].
      intros a Ha%new_starts_job. by apply (Hnone (start, a)). }
  split; [done|]. unfold job_sequence, bind. by rewrite Hfind.
Qed.

(** C3, as amended. [schedule] does not check locations: the membership
    test of the network has no influence on any step, and an exception that
    leaves [schedule] is the one raised by the call to the network made
    last; with no job to plan it returns the empty schedule at once,
    whatever [start] is, without a call to the network. *)
Theorem schedule_checks_no_location graph start (jobs : ref) h l n :
  (∀ test, schedule (with_contains test graph) start jobs h l n
           = schedule graph start jobs h l n)
  ∧ (∀ e, pc (schedule graph start jobs h l n) = Raised e →
          last_call_raised graph (log (schedule graph start jobs h l n)) e)
  ∧ (load h jobs = [] →
     pc (schedule graph start jobs h l (S n)) = Returned (length h)
     ∧ log (schedule graph start jobs h l (S n)) = l
     ∧ load (heap (schedule graph start jobs h l (S n))) (length h) = []).
Proof.
  split_and!.
  - intros test. rewrite !schedule_run. apply run_contains.
  - intros e. rewrite schedule_run. by apply run_raise_last.
  - intros Hempty. rewrite schedule_run, run_S, run_return by done.
    rewrite final_run by done. simpl. rewrite load_new_schedule. done.
Qed.

End claims.

(** ** Termination when distances are finite *)

Section termination.

Context {Loc : Type} `{EqDecision Loc}.
Local Abbreviation Job := (Loc * Loc)%type.
Implicit Types (graph : Network Loc) (start : Loc) (h : Heap Loc)
  (l : list (call Loc)) (seq : list Job) (sp : list Job * list Job).

(** A round that does not raise removes at least one pending job, and the
    fallback removes them all, when the network never answers
    [float('inf')] for a distance. *)
Theorem round_removes_a_job graph start (jobs : ref) h sp seq l l' k :
  finite_distances graph → sp.2 ≠ [] →
  job_sequence graph start sp.2 l = (Ok seq, l') →
  run graph start (frame_of jobs h) (S (S (length seq)))
      (Config (h ++ objects sp) l k AtWhile)
  = Config (h ++ objects (foldl take_job sp seq)) l' (S k) AtWhile
  ∧ length (foldl take_job sp seq).2 < length sp.2
  ∧ ((find_perfect_circuit graph start sp.2 l).1 = Ok [] →
     (foldl take_job sp seq).2 = []).
Proof.
  intros Hfin Hpool Hseq. split; [by apply run_round|]. split.
  - destruct (job_sequence_progress _ _ _ _ _ _ Hfin Hpool Hseq)
      as (job & Hjob & Hpending).
    by apply (foldl_take_job_shrinks seq sp job).
  - intros Hnone. apply foldl_take_job_all.
    apply (permutation_fallback_all graph start _
             (find_perfect_circuit graph start sp.2 l).2 _ l'); [done|].
    revert Hseq. unfold job_sequence, bind.
    destruct (find_perfect_circuit graph start sp.2 l) as [[path|e] l1]; simpl in *.
    + by injection Hnone as ->.
    + done.
Qed.

(** With such a network, [schedule] reaches its end, by returning or by an
    exception of the network, and the body of the while loop is entered at
    most as many times as there are jobs. *)
Theorem schedule_terminates_with_finite_distances graph start (jobs : ref) h l :
  finite_distances graph →
  (∃ n, final (schedule graph start jobs h l n) = true)
  ∧ ∀ m, rounds (schedule graph start jobs h l m) ≤ length (load h jobs).
Proof.
  intros Hfin.
  destruct (run_terminates graph start jobs h Hfin (length (load h jobs))
              ([], load h jobs) l 0) as (n & Hfinal & Hrounds); [done|].
  split.
  - exists n. by rewrite schedule_run.
  - intros m. rewrite schedule_run. simpl in Hrounds.
    destruct (decide (m ≤ n)) as [Hle|Hgt].
    + etrans; [by apply run_rounds|done].
    + replace m with (n + (m - n)) by lia.
      by rewrite run_plus, final_run.
Qed.

End termination.

(** ** The circuit finder misses no circuit *)

Section completeness.

Context {Loc : Type} `{EqDecision Loc}.
Local Abbreviation Job := (Loc * Loc)%type.
Implicit Types (graph : Network Loc) (g : Graph Loc) (start : Loc)
  (l : list (call Loc)) (jobs : list Job).

Lemma first_circuit_some g start candidates a :
  a ∈ candidates → breadth_first_search g a start ≠ [] →
  first_circuit g start candidates ≠ [].
Proof.
  induction candidates as [|c candidates IH]; simpl.
  - by intros ?%elem_of_nil.
  - intros [->|Hin]%elem_of_cons Hbfs.
    + by destruct (breadth_first_search g c start).
    + destruct (breadth_first_search g c start); [by apply IH|done].
Qed.

(** When the pending jobs hold a circuit through [start] and no call to the
    network raises, [find_perfect_circuit] returns a non-empty path. *)
Theorem circuit_found_when_one_exists graph start jobs l g l' :
  add_jobs graph jobs [] l = (Ok g, l') → circuit_exists jobs start →
  ∃ path, path ≠ [] ∧ find_perfect_circuit graph start jobs l = (Ok path, l').
Proof.
  intros Hadd (p & Hhead & Hlast & Hne & Hjobs).
  destruct (add_jobs_spec graph jobs [] l) as (asked & _ & _ & _ & Hres).
  rewrite Hadd in Hres. simpl in Hres. destruct Hres as (new & -> & _ & Hall & _).
  destruct p as [|s [|x q]]; [done..|]. simpl in Hhead. simplify_eq.
  rewrite last_cons_cons in Hlast.
  exists (first_circuit new start (new_starts start jobs)). split.
  - apply (first_circuit_some _ _ _ x).
    + apply new_starts_job, Hjobs. by left.
    + apply breadth_first_search_complete. exists (x :: q).
      split_and!; [done..|]. intros j Hj. apply Hall, Hjobs. by right.
  - unfold find_perfect_circuit, bind, ret. by rewrite Hadd.
Qed.

End completeness.

(** * The examples, evaluated *)

Module Checks.

Import Example.

(** C1, the claim as stated fails: with the job [(A, B)] given twice, after
    the first pass of the for loop one [(A, B)] is in the schedule and the
    other still pending, so the two lists are not disjoint. *)
Lemma duplicate_job_pending_and_scheduled :
  let f := schedule_frame 0 (only [(A, B); (A, B)]) in
  let c := schedule triangle A 0 (only [(A, B); (A, B)]) [] 2 in
  ¬ (∀ job, job ∈ load (heap c) (jobs_to_plan f) →
            job ∉ load (heap c) (new_schedule f)).
Proof.
  intros f c Hdisjoint. apply (Hdisjoint (A, B)); vm_compute; by left.
Qed.

Lemma schedule_conserves_jobs_witness :
  let c := schedule triangle A 0 (only legs) [] 9 in
  load (heap c) 2 ++ load (heap c) 1 ≡ₚ legs
  ∧ (pc c = Returned 1 → load (heap c) 1 ≡ₚ legs)
  ∧ ∀ job, job ∈ load (heap c) 2 → job ∉ load (heap c) 1.
Proof.
  intros c.
  destruct (schedule_conserves_jobs triangle A 0 (only legs) [] 9)
    as (Hall & Hret & Hdisjoint).
  split; [exact Hall|]. split; [exact (Hret 1)|].
  apply Hdisjoint. vm_compute. repeat constructor; set_solver.
Defined.

(** C2, the code at the failing input: on the network with the one edge
    [A -> B], started at [C] with the job [(A, B)], every ordering has the
    distance [float('inf')], no round removes a job, and [schedule] never
    ends; after six steps the while loop has been entered three times, with
    one job. *)
Theorem one_way_schedule_never_ends :
  (∀ n, final (schedule one_way C 0 (only [(A, B)]) [] n) = false
        ∧ load (heap (schedule one_way C 0 (only [(A, B)]) [] n)) 2 = [(A, B)])
  ∧ rounds (schedule one_way C 0 (only [(A, B)]) [] 6) = 3.
Proof.
  split; [|by vm_compute].
  intros n.
  cut (heap (schedule one_way C 0 (only [(A, B)]) [] n)
       = [[(A, B)]; []; [(A, B)]]
       ∧ (pc (schedule one_way C 0 (only [(A, B)]) [] n) = AtWhile
          ∨ pc (schedule one_way C 0 (only [(A, B)]) [] n) = AtFor [])).
  { unfold final. intros [-> [-> | ->]]; done. }
  induction n as [|n [Hheap Hpc]]; [by split; [|left]|].
  unfold schedule in *. simpl in *. unfold run in *. simpl.
  destruct (Nat.iter n _ _) as [hp lg k ctl]. simpl in *. subst hp.
  destruct Hpc as [-> | ->]; by split; [|auto].
Qed.

(** C3, the claim as stated fails: [C] is no location of the network, yet
    with no job [schedule] returns and never raises, and with the job
    [(A, B)] the network has been asked twice by the time the call fails. *)
Lemma unknown_start_is_not_rejected :
  contains pair_of_nodes C = false
  ∧ (∀ n, pc (schedule pair_of_nodes C 0 (only []) [] n) ≠ Raised InvalidLocation)
  ∧ schedule pair_of_nodes C 0 (only [(A, B)]) [] 1
    = Config [[(A, B)]; []; [(A, B)]]
             [ShortestPath A B; DistanceFromPath [C; A; B]]
             1 (Raised InvalidLocation).
Proof.
  split; [done|]. split; [|by vm_compute].
  intros [|n]; [done|].
  rewrite schedule_run, run_S, run_return by done.
  by rewrite final_run.
Qed.

Lemma perfect_circuit_is_closed_walk_witness :
  head [A; B; A] = Some A ∧ last [A; B; A] = Some A
  ∧ ∀ job, job ∈ jobs_from_path [A; B; A] → job ∈ legs.
Proof.
  apply (perfect_circuit_is_closed_walk triangle A legs []
           [A; B; A]
           [ShortestPath A B; ShortestPath A C; ShortestPath B A; ShortestPath C A]).
  - vm_compute. reflexivity.
  - discriminate.
Defined.

Lemma fallback_selects_first_shortest_witness :
  permutation_fallback triangle B [(A, B); (C, A)] []
  = (Ok [(B, C); (C, A); (A, B)],
     [DistanceFromPath [B; A; B; C; A]; DistanceFromPath [B; C; A; B]])
  ∧ ∃ d p, [(B, C); (C, A); (A, B)] = jobs_from_path p
           ∧ (d = Inf ∧ p = []
              ∨ ∃ before perm after,
                  itertools.permutations [(A, B); (C, A)] = before ++ perm :: after
                  ∧ p = path_from_schedule perm B
                  ∧ distance_from_path triangle p = Ok d).
Proof.
  split; [vm_compute; reflexivity|].
  destruct (fallback_selects_first_shortest triangle B [(A, B); (C, A)] []
              [(B, C); (C, A); (A, B)]
              [DistanceFromPath [B; A; B; C; A]; DistanceFromPath [B; C; A; B]])
    as (d & p & Hseq & _ & Hsel).
  - vm_compute. reflexivity.
  - exists d, p. split; [exact Hseq|].
    destruct Hsel as [Hnone|(before & perm & after & Hperms & Hp & Hd & _)].
    + left. exact Hnone.
    + right. exists before, perm, after. auto.
Defined.

(** C6, the claim as stated fails: on the ring [A -> B -> C -> A] the
    shortest path from [A] to [C] goes through [B], so the path with the
    connector inserted is [A, B, C, A], and [path_from_schedule] returns
    [A, C, A]. *)
Lemma path_from_schedule_has_no_connector :
  path_with_connectors ring [(C, A)] A []
  = (Ok [A; B; C; A], [ShortestPath A C])
  ∧ path_from_schedule [(C, A)] A = [A; C; A]
  ∧ (path_with_connectors ring [(C, A)] A []).1
    ≠ Ok (path_from_schedule [(C, A)] A).
Proof. split; [by vm_compute|]. split; [by vm_compute|]. by vm_compute. Qed.

(** C7, the claim as stated fails: the first circuit is [A, B, A]; when
    the while test is reached again, after one round, the jobs [(A, C)] and
    [(C, A)] are still pending. *)
Lemma first_circuit_leaves_two_legs :
  let c := schedule triangle A 0 (only legs) [] 4 in
  pc c = AtWhile ∧ rounds c = 1
  ∧ load (heap c) 1 = [(A, B); (B, A)]
  ∧ load (heap c) 2 = [(A, C); (C, A)]
  ∧ load (heap c) 2 ≠ [].
Proof. by vm_compute. Qed.

(** C7, as amended. In example 1 the circuit finder succeeds in the first
    round with the circuit [A, B, A], which takes two of the four legs, and
    in the second round with [A, C, A], which takes the other two; the
    schedule is returned after two rounds, and the fallback never runs: the
    network is asked for no distance of a path. *)
Theorem example_one_takes_two_circuits :
  find_perfect_circuit triangle A legs []
  = (Ok [A; B; A],
     [ShortestPath A B; ShortestPath A C; ShortestPath B A; ShortestPath C A])
  ∧ (find_perfect_circuit triangle A [(A, C); (C, A)] []).1 = Ok [A; C; A]
  ∧ schedule triangle A 0 (only legs) [] 9
    = Config [legs; [(A, B); (B, A); (A, C); (C, A)]; []]
             [ShortestPath A B; ShortestPath A C; ShortestPath B A;
              ShortestPath C A; ShortestPath A C; ShortestPath C A]
             2 (Returned 1).
Proof. by vm_compute. Qed.

Lemma schedule_keeps_callers_lists_witness :
  take 1 (heap (schedule triangle A 0 (only legs) [] 9)) = only legs
  ∧ heap (schedule triangle A 0 (only legs) [] 9) !! 0 = Some legs.
Proof.
  destruct (schedule_keeps_callers_lists triangle A 0 (only legs) [] 9)
    as (Htake & Hsame & _).
  split; [exact Htake|]. apply Hsame. reflexivity.
Defined.

Lemma no_circuit_returns_empty_path_witness :
  find_perfect_circuit one_way A [(A, B)] [] = (Ok [], [ShortestPath A B])
  ∧ job_sequence one_way A [(A, B)] []
    = permutation_fallback one_way A [(A, B)] [ShortestPath A B].
Proof.
  apply (no_circuit_returns_empty_path one_way A [(A, B)] []
           [((A, B), Fin 1)] [ShortestPath A B]).
  - vm_compute. reflexivity.
  - right. right. intros job Hjob _. apply list_elem_of_singleton in Hjob.
    subst job. vm_compute. reflexivity.
Defined.

Lemma circuit_found_when_one_exists_witness :
  ∃ path, path ≠ []
          ∧ find_perfect_circuit triangle A legs []
            = (Ok path,
               [ShortestPath A B; ShortestPath A C; ShortestPath B A;
                ShortestPath C A]).
Proof.
  apply (circuit_found_when_one_exists triangle A legs []
           [((A, B), Fin 1); ((A, C), Fin 1); ((B, A), Fin 1); ((C, A), Fin 1)]).
  - vm_compute. reflexivity.
  - exists [A; C; A]. split_and!; [reflexivity|reflexivity|discriminate|].
    intros job Hjob. vm_compute in Hjob. unfold legs. set_solver.
Defined.

Lemma triangle_finite_distances : finite_distances triangle.
Proof. intros p. discriminate. Qed.

Lemma round_removes_a_job_witness :
  run triangle A (frame_of 0 (only legs)) 4
      (Config (only legs ++ objects ([], legs)) [] 0 AtWhile)
  = Config (only legs ++ objects (foldl take_job ([], legs) [(A, B); (B, A)]))
           [ShortestPath A B; ShortestPath A C; ShortestPath B A; ShortestPath C A]
           1 AtWhile
  ∧ length (foldl take_job ([], legs) [(A, B); (B, A)]).2 < length legs.
Proof.
  destruct (round_removes_a_job triangle A 0 (only legs) ([], legs)
              [(A, B); (B, A)] []
              [ShortestPath A B; ShortestPath A C; ShortestPath B A; ShortestPath C A]
              0 triangle_finite_distances) as (Hrun & Hless & _).
  - discriminate.
  - vm_compute. reflexivity.
  - split; [exact Hrun|exact Hless].
Defined.

Lemma schedule_terminates_with_finite_distances_witness :
  (∃ n, final (schedule triangle A 0 (only legs) [] n) = true)
  ∧ ∀ m, rounds (schedule triangle A 0 (only legs) [] m) ≤ 4.
Proof.
  exact (schedule_terminates_with_finite_distances triangle A 0 (only legs) []
           triangle_finite_distances).
Defined.

End Checks.

(** * Further properties of the helpers *)

Section travel_paths.

Context {Loc : Type} `{EqDecision Loc}.
Local Abbreviation Job := (Loc * Loc)%type.
Local Abbreviation Path := (list Loc).
Implicit Types (start here a b : Loc) (p path : Path) (job : Job) (js : list Job).

(** The number of jobs of an ordering that do not start where the walk
    stands: at [here] for the first, at the destination of the job before
    for the others. *)
Fixpoint breaks (here : Loc) (js : list Job) : nat :=
  match js with
  | [] => 0
  | (A, B) :: js' => (if decide (A = here) then 0 else 1) + breaks B js'
  end.

(** Where the walk of an ordering ends. *)
Definition destination (start : Loc) (js : list Job) : Loc :=
  match last js with Some job => job.2 | None => start end.

Lemma jobs_from_path_length path : length (jobs_from_path path) = length path - 1.
Proof.
  induction path as [|a [|b path] IH]; [done..|].
  change (jobs_from_path (a :: b :: path)) with ((a, b) :: jobs_from_path (b :: path)).
  simpl in *. lia.
Qed.

Lemma foldl_visit_length js p here :
  last p = Some here →
  length (foldl visit p js) = length p + length js + breaks here js.
Proof.
  revert p here. induction js as [|[A B] js IH]; intros p here Hlast; cbn [foldl].
  - simpl. lia.
  - rewrite (IH _ B).
    + unfold visit. rewrite Hlast. simpl. destruct (decide (A = here)) as [->|Hne].
      * rewrite decide_True by done. rewrite length_app. simpl. lia.
      * rewrite decide_False by congruence. rewrite length_app. simpl. lia.
    + unfold visit. case_decide.
      * by rewrite last_snoc.
      * change [A; B] with ([A] ++ [B]). by rewrite (assoc_L (++)), last_snoc.
Qed.

Lemma foldl_visit_last js p here :
  last p = Some here → last (foldl visit p js) = Some (destination here js).
Proof.
  revert p here. induction js as [|[A B] js IH]; intros p here Hlast; cbn [foldl].
  - done.
  - rewrite (IH _ B).
    + unfold destination. destruct js as [|job js]; [done|].
      rewrite last_cons_cons. destruct (last (job :: js)) eqn:Hjs; [done|].
      by apply last_None in Hjs.
    + unfold visit. case_decide.
      * by rewrite last_snoc.
      * change [A; B] with ([A] ++ [B]). by rewrite (assoc_L (++)), last_snoc.
Qed.

(** The length of the path of an ordering: the start, one location for each
    job, and one more for each job that does not start where the walk
    stands; so between [len(jobs) + 1] and [2 * len(jobs) + 1]. The path
    ends at the destination of the last job. *)
Theorem path_from_schedule_length js start :
  length (path_from_schedule js start) = 1 + length js + breaks start js
  ∧ breaks start js ≤ length js
  ∧ head (path_from_schedule js start) = Some start
  ∧ last (path_from_schedule js start) = Some (destination start js).
Proof.
  unfold path_from_schedule. split_and!.
  - by rewrite (foldl_visit_length js [start] start).
  - generalize start. induction js as [|[A B] js IH]; intros s; simpl; [lia|].
    specialize (IH B). case_decide; lia.
  - apply path_from_schedule_head.
  - by apply foldl_visit_last.
Qed.

Lemma foldl_visit_chained js p here :
  last p = Some here → breaks here js = 0 →
  jobs_from_path (foldl visit p js) = jobs_from_path p ++ js.
Proof.
  revert p here.
  induction js as [|[A B] js IH]; intros p here Hlast Hbreaks; cbn [foldl].
  - by rewrite app_nil_r.
  - simpl in Hbreaks. case_decide as HA; [|lia]. subst A.
    rewrite (IH _ B).
    + rewrite visit_jobs, Hlast, decide_True by done.
      by rewrite <-!(assoc_L (++)).
    + unfold visit. rewrite Hlast, decide_True by done. by rewrite last_snoc.
    + done.
Qed.

(** The jobs read back from the path of an ordering are the ordering itself
    exactly when every job starts where the one before it ended, the first
    at [start]. *)
Theorem jobs_from_path_of_schedule js start :
  jobs_from_path (path_from_schedule js start) = js ↔ breaks start js = 0.
Proof.
  split.
  - intros Hsame. apply (f_equal length) in Hsame.
    rewrite jobs_from_path_length in Hsame.
    destruct (path_from_schedule_length js start) as (Hlen & _).
    lia.
  - intros Hbreaks. unfold path_from_schedule.
    by rewrite (foldl_visit_chained js [start] start).
Qed.

Lemma foldl_visit_jobs_from_path p x rest :
  last p = Some x → foldl visit p (jobs_from_path (x :: rest)) = p ++ rest.
Proof.
  revert p x. induction rest as [|y rest IH]; intros p x Hlast.
  - by rewrite app_nil_r.
  - change (jobs_from_path (x :: y :: rest))
      with ((x, y) :: jobs_from_path (y :: rest)).
    cbn [foldl]. unfold visit at 2. rewrite decide_True by done.
    rewrite (IH _ y) by apply last_snoc.
    by rewrite <-(assoc_L (++)).
Qed.

(** A path is the path of its own jobs, walked from its first location. *)
Theorem path_from_schedule_of_jobs a rest :
  path_from_schedule (jobs_from_path (a :: rest)) a = a :: rest.
Proof.
  unfold path_from_schedule. by rewrite (foldl_visit_jobs_from_path [a] a rest).
Qed.

End travel_paths.

(** * Further properties of the circuit finder *)

Section circuit_shape.

Context {Loc : Type} `{EqDecision Loc}.
Local Abbreviation Job := (Loc * Loc)%type.
Local Abbreviation Path := (list Loc).
Implicit Types (graph : Network Loc) (g : Graph Loc) (start a b n : Loc)
  (l : list (call Loc)) (jobs : list Job) (p walk path : Path)
  (visited : list Loc) (queue : list Path).

(** A queued walk visits no node twice, and only marked nodes. *)
Definition simple_walk visited walk : Prop :=
  NoDup walk ∧ ∀ n, n ∈ walk → n ∈ visited.

Lemma bfs_loop_NoDup fuel g target visited queue :
  Forall (simple_walk visited) queue →
  NoDup (bfs_loop fuel g target visited queue).
Proof.
  revert visited queue.
  induction fuel as [|fuel IH]; intros visited queue Hqueue; simpl; [constructor|].
  destruct queue as [|[|node before] queue]; [constructor..|].
  apply Forall_cons in Hqueue as [[Hwalk Hmarked] Hqueue].
  case_decide; [by rewrite reverse_Permutation|].
  destruct (discover_spec (node :: before) (successors g node) visited queue)
    as (new & -> & Hnodup & Hnew & _).
  apply IH. apply Forall_app. split.
  - eapply Forall_impl; [exact Hqueue|]. intros w [Hw Hin].
    split; [done|]. intros n Hn. apply elem_of_app. left. by apply Hin.
  - apply Forall_fmap, Forall_forall. intros n Hn. split.
    + constructor; [|done]. intros Hin. apply Hmarked in Hin.
      by destruct (Hnew n Hn).
    + intros m [->|Hm]%elem_of_cons; apply elem_of_app; [by right|].
      left. by apply Hmarked.
Qed.

Lemma breadth_first_search_NoDup g a b : NoDup (breadth_first_search g a b).
Proof.
  apply bfs_loop_NoDup, Forall_singleton. split; [apply NoDup_singleton|].
  by intros n Hn.
Qed.

Lemma jobs_from_path_origins path :
  (jobs_from_path path).*1 = take (length path - 1) path.
Proof.
  induction path as [|x [|y path] IH]; [done..|].
  change (jobs_from_path (x :: y :: path)) with ((x, y) :: jobs_from_path (y :: path)).
  rewrite fmap_cons, IH. simpl. by rewrite Nat.sub_0_r.
Qed.

(** The hops of a circuit are pairwise different. *)
Lemma first_circuit_hops_NoDup g start candidates :
  NoDup (jobs_from_path (first_circuit g start candidates)).
Proof.
  induction candidates as [|a candidates IH]; simpl; [constructor|].
  destruct (breadth_first_search g a start) as [|n p] eqn:Hbfs; [done|].
  apply (NoDup_fmap_1 fst). rewrite jobs_from_path_origins.
  pose proof (breadth_first_search_NoDup g a start) as Hnodup.
  destruct (breadth_first_search_sound g a start) as (_ & Hlast & _);
    [by rewrite Hbfs|].
  rewrite Hbfs in Hnodup, Hlast.
  apply last_Some in Hlast as [q Hq]. rewrite Hq in *.
  simpl. rewrite length_app. simpl.
  replace (length q + 1 - 0) with (S (length q)) by lia. simpl.
  rewrite take_app_length. constructor.
  - intros Hin. apply NoDup_app in Hnodup as (_ & Hdisj & _).
    apply (Hdisj start Hin). by left.
  - by apply NoDup_app in Hnodup as (? & _).
Qed.

Lemma elem_of_list_remove_ne (x y : Job) (pool : list Job) :
  y ≠ x → y ∈ pool → y ∈ list_remove x pool.
Proof.
  intros Hne. induction pool as [|z pool IH]; simpl; [done|].
  case_decide as Hz.
  - subst z. by intros [?|?]%elem_of_cons.
  - intros [->|Hin]%elem_of_cons; [by left|]. right. by apply IH.
Qed.

(** Different jobs that are all pending are all taken, in their order. *)
Lemma foldl_take_job_distinct (seq : list Job) (sp : list Job * list Job) :
  NoDup seq → (∀ job, job ∈ seq → job ∈ sp.2) →
  (foldl take_job sp seq).1 = sp.1 ++ seq.
Proof.
  revert sp. induction seq as [|x seq IH]; intros [sched pool] Hnodup Hin; cbn [foldl].
  - by rewrite app_nil_r.
  - apply NoDup_cons in Hnodup as [Hx Hnodup]. simpl in Hin.
    unfold take_job at 2. simpl. rewrite decide_True by (apply Hin; by left).
    rewrite IH; [simpl; by rewrite <-(assoc_L (++))|done|]. simpl.
    intros job Hjob. apply elem_of_list_remove_ne.
    + intros ->. done.
    + apply Hin. by right.
Qed.

(** A round with a circuit appends to the schedule exactly the hops of the
    circuit, in the order of travel. *)
Theorem circuit_round_schedules_its_hops graph start (jobs : ref)
    (h : Heap Loc) (sp : list Job * list Job) path l l' k :
  find_perfect_circuit graph start sp.2 l = (Ok path, l') → path ≠ [] →
  ∃ sp',
    run graph start (frame_of jobs h) (S (S (length (jobs_from_path path))))
        (Config (h ++ objects sp) l k AtWhile)
    = Config (h ++ objects sp') l' (S k) AtWhile
    ∧ sp'.1 = sp.1 ++ jobs_from_path path
    ∧ head path = Some start ∧ last path = Some start.
Proof.
  intros Hfind Hpath. exists (foldl take_job sp (jobs_from_path path)).
  pose proof (find_perfect_circuit_sound _ _ _ _ _ _ Hfind Hpath)
    as (Hhead & Hlast & Hjobs & Hne).
  assert (sp.2 ≠ []) as Hpool.
  { destruct (jobs_from_path path) as [|job seq] eqn:Hseq; [done|].
    intros Hnil. specialize (Hjobs job). rewrite Hnil in Hjobs.
    by apply (not_elem_of_nil job), Hjobs; left. }
  split_and!; [|  |done|done].
  - apply run_round; [done|]. unfold job_sequence, bind, ret. rewrite Hfind.
    by destruct path.
  - apply foldl_take_job_distinct; [|done].
    revert Hfind. unfold find_perfect_circuit, bind, ret.
    destruct (add_jobs graph sp.2 [] l) as [[g|e] l1]; [|done].
    intros [= <- <-]. apply first_circuit_hops_NoDup.
Qed.


End circuit_shape.

(** * Further properties of the schedule assembler *)

Section orderings.

Context {A : Type}.
Implicit Types (l : list A).

Lemma flat_map_length_const {X B} (f : X → list B) (l : list X) k :
  (∀ x, x ∈ l → length (f x) = k) → length (flat_map f l) = length l * k.
Proof.
  induction l as [|x l IH]; intros Hk; simpl; [done|].
  rewrite length_app, (Hk x) by (by left). rewrite IH; [done|].
  intros y Hy. apply Hk. by right.
Qed.

Lemma selections_length l : length (itertools.selections l) = length l.
Proof.
  induction l as [|x l IH]; simpl; [done|]. by rewrite length_map, IH.
Qed.

Lemma permutations_of_length_count n l :
  length l = n → length (itertools.permutations_of_length n l) = fact n.
Proof.
  revert l. induction n as [|n IH]; intros l Hlen; [done|].
  cbn [itertools.permutations_of_length].
  rewrite (flat_map_length_const _ _ (fact n)).
  - rewrite selections_length, Hlen. simpl. lia.
  - intros [x rest] Hsel. simpl. rewrite length_map. apply IH.
    apply selections_perm, Permutation_length in Hsel. simpl in Hsel. lia.
Qed.

End orderings.

Section growth.

Context {Loc : Type} `{EqDecision Loc}.
Local Abbreviation Job := (Loc * Loc)%type.
Implicit Types (graph : Network Loc) (start : Loc) (h : Heap Loc)
  (l : list (call Loc)) (c : config Loc) (job : Job)
  (pending seq : list Job) (sp : list Job * list Job).

Lemma list_remove_sublist job (pool : list Job) : list_remove job pool `sublist_of` pool.
Proof.
  induction pool as [|x pool IH]; simpl; [done|].
  case_decide; [by apply sublist_cons|by apply sublist_skip].
Qed.

(** The schedule is extended at its end and the pool only loses jobs. *)
Definition grows sp sp' : Prop :=
  sp.1 `prefix_of` sp'.1 ∧ sp'.2 `sublist_of` sp.2.

Lemma grows_refl sp : grows sp sp.
Proof. by split. Qed.

Lemma grows_trans sp1 sp2 sp3 : grows sp1 sp2 → grows sp2 sp3 → grows sp1 sp3.
Proof. intros [? ?] [? ?]. split; by etrans. Qed.

Lemma take_job_grows sp job : grows sp (take_job sp job).
Proof.
  unfold take_job. case_decide; [|apply grows_refl]. split; simpl.
  - by apply prefix_app_r.
  - apply list_remove_sublist.
Qed.

Lemma step_grows graph start (jobs : ref) h sp c :
  heap c = h ++ objects sp →
  ∃ sp', heap (step graph start (frame_of jobs h) c) = h ++ objects sp'
         ∧ grows sp sp'.
Proof.
  intros Hheap. unfold step.
  destruct (pc c) as [|[|job remaining]|r|e]; simpl.
  - destruct (load (heap c) (S (length h))) as [|x pool].
    + exists sp. split; [done|apply grows_refl].
    + destruct (job_sequence graph start (x :: pool) (log c)) as [[seq|e] l'];
        exists sp; (split; [done|apply grows_refl]).
  - exists sp. split; [done|apply grows_refl].
  - exists (take_job sp job). rewrite Hheap, consume_take.
    split; [done|apply take_job_grows].
  - exists sp. split; [done|apply grows_refl].
  - exists sp. split; [done|apply grows_refl].
Qed.

Lemma run_grows graph start (jobs : ref) h sp c m :
  heap c = h ++ objects sp →
  ∃ sp', heap (run graph start (frame_of jobs h) m c) = h ++ objects sp'
         ∧ grows sp sp'.
Proof.
  intros Hheap. induction m as [|m (sp1 & Hheap1 & Hgrows1)].
  - exists sp. split; [done|apply grows_refl].
  - destruct (step_grows graph start jobs h sp1 _ Hheap1) as (sp2 & Hheap2 & Hgrows2).
    exists sp2. split; [done|]. by apply (grows_trans _ sp1).
Qed.

(** Between any two moments of [schedule] the schedule built so far is only
    extended at its end, so a job keeps the place it got, and the pool only
    loses jobs, the others keeping their order; the pool is at every moment
    a sublist of the input. *)
Theorem schedule_grows_pool_shrinks graph start (jobs : ref) h l n m :
  let f := schedule_frame jobs h in
  let c := schedule graph start jobs h l n in
  let c' := schedule graph start jobs h l (n + m) in
  load (heap c) (new_schedule f) `prefix_of` load (heap c') (new_schedule f)
  ∧ load (heap c') (jobs_to_plan f) `sublist_of` load (heap c) (jobs_to_plan f)
  ∧ load (heap c) (jobs_to_plan f) `sublist_of` load h jobs.
Proof.
  intros f c c'. subst f c c'. rewrite schedule_frame_of, !schedule_run, run_plus.
  cbn [new_schedule jobs_to_plan frame_of].
  destruct (run_grows graph start jobs h ([], load h jobs)
              (Config (h ++ objects ([], load h jobs)) l 0 AtWhile) n eq_refl)
    as (sp & Hheap & _ & Hpool).
  destruct (run_grows graph start jobs h sp _ m Hheap) as (sp' & Hheap' & Hsched' & Hpool').
  rewrite Hheap', Hheap, !load_new_schedule, !load_jobs_to_plan.
  by split_and!.
Qed.

(** The fallback asks the network for the distance of the path of every
    ordering of the pending jobs, once each and in the order of
    [itertools.permutations], so [len(jobs_to_plan)!] times, and for nothing
    else. *)
Theorem fallback_measures_every_ordering graph start pending l seq l' :
  permutation_fallback graph start pending l = (Ok seq, l') →
  l' = l ++ ((λ perm, DistanceFromPath (path_from_schedule perm start))
               <$> itertools.permutations pending)
  ∧ length l' = length l + fact (length pending).
Proof.
  unfold permutation_fallback, bind, ret. intros Hfall.
  destruct (evaluate graph start (itertools.permutations pending) Inf [] l)
    as [[best|e] l1] eqn:Heval; [|done].
  destruct best as [d p]. injection Hfall as _ <-.
  apply evaluate_spec in Heval as (-> & _). split; [done|].
  rewrite length_app, length_fmap. f_equal.
  by apply permutations_of_length_count.
Qed.

End growth.

(** * The further properties on the examples *)

Module MoreChecks.

Import Example.

Lemma circuit_round_schedules_its_hops_witness :
  ∃ sp',
    run triangle A (frame_of 0 (only legs)) 4
        (Config (only legs ++ objects ([], legs)) [] 0 AtWhile)
    = Config (only legs ++ objects sp')
             [ShortestPath A B; ShortestPath A C; ShortestPath B A; ShortestPath C A]
             1 AtWhile
    ∧ sp'.1 = [(A, B); (B, A)].
Proof.
  destruct (circuit_round_schedules_its_hops triangle A 0 (only legs) ([], legs)
              [A; B; A] []
              [ShortestPath A B; ShortestPath A C; ShortestPath B A; ShortestPath C A]
              0) as (sp' & Hrun & Hsched & _).
  - vm_compute. reflexivity.
  - discriminate.
  - exists sp'. split; [exact Hrun|exact Hsched].
Defined.


Lemma fallback_measures_every_ordering_witness :
  [DistanceFromPath [B; A; B; C; A]; DistanceFromPath [B; C; A; B]]
  = [] ++ ((λ perm, DistanceFromPath (path_from_schedule perm B))
             <$> itertools.permutations [(A, B); (C, A)])
  ∧ length [DistanceFromPath [B; A; B; C; A]; DistanceFromPath [B; C; A; B]]
    = 0 + fact 2.
Proof.
  apply (fallback_measures_every_ordering triangle B [(A, B); (C, A)] []
           [(B, C); (C, A); (A, B)]).
  vm_compute. reflexivity.
Defined.

End MoreChecks.

(** * The classes [Trip], [Traveller] and [Shuttle] *)

(** What a constructor does besides returning: an assertion fails, the
    arguments of a call do not fit the parameters, or the network raises. *)
Inductive python_exception : Type :=
  | AssertionError
  | TypeError
  | FromNetwork (e : exception).

Inductive outcome (A : Type) : Type :=
  | Returns (a : A)
  | Fails (e : python_exception).
Arguments Returns {A} a.
Arguments Fails {A} e.

(** [assert b]. *)
Definition assert (b : bool) : outcome unit :=
  if b then Returns tt else Fails AssertionError.

Definition and_then {A B} (o : outcome A) (k : A → outcome B) : outcome B :=
  match o with
  | Returns a => k a
  | Fails e => Fails e
  end.

(** The parameters of [Trip.__init__] after [self], in their order. *)
Inductive parameter : Type :=
  | p_network | p_start | p_end | p_available | p_deadline | p_begin
  | p_complete | p_path.

#[global] Instance parameter_eq_dec : EqDecision parameter.
Proof. solve_decision. Defined.

Section classes.

Context {Loc : Type} `{EqDecision Loc}.

Local Abbreviation Job := (Loc * Loc)%type.
Local Abbreviation Path := (list Loc).

(** The Python values handed to the constructors: [None], a node, a
    number, a graph, and lists, tuples and sets of values (a set by its
    elements in the order of iteration). *)
#[local] Set Warnings "-register-all".
Inductive value : Type :=
  | VNone
  | VNode (a : Loc)
  | VNumber (x : number)
  | VGraph (graph : Network Loc)
  | VList (items : list value)
  | VTuple (items : list value)
  | VSet (items : list value).

Definition is_None (v : value) : bool :=
  match v with VNone => true | _ => false end.

(** [v in network]: the nodes of a network are the values [VNode a] with
    [a] in it. *)
Definition is_node (network : Network Loc) (v : value) : bool :=
  match v with
  | VNode a => contains network a
  | _ => false
  end.

(** ** Trip *)

(** The attributes of a [Trip]. *)
Record Trip : Type := {
  trip_path : value;
  trip_start : Loc;
  trip_end : Loc;
  trip_available : value;
  trip_begin : value;
  trip_complete : value;
  trip_deadline : value
}.

(** The pair [(distance, path)] that [shortest_path] returns, as a value. *)
Definition pair_value (dp : number * Path) : value :=
  VTuple [VNumber dp.1; VList (VNode <$> dp.2)].

(** [Trip.__init__], lines 87-115, called with a graph for [network] and
    nodes for [start] and [end]. *)
Definition Trip_init (network : Network Loc) (start end_ : Loc)
    (available deadline begin complete path : value)
    (l : list (call Loc)) : outcome Trip * list (call Loc) :=
  match assert (contains network start) with
  | Fails e => (Fails e, l)
  | Returns _ =>
      match assert (contains network end_) with
      | Fails e => (Fails e, l)
      | Returns _ =>
          if is_None path then
            match shortest_path network start end_ with
            | Ok dp =>
                (Returns {| trip_path := pair_value dp;
                            trip_start := start; trip_end := end_;
                            trip_available := available; trip_begin := begin;
                            trip_complete := complete;
                            trip_deadline := deadline |},
                 l ++ [ShortestPath start end_])
            | Raise e => (Fails (FromNetwork e), l ++ [ShortestPath start end_])
            end
          else
            (Returns {| trip_path := path;
                        trip_start := start; trip_end := end_;
                        trip_available := available; trip_begin := begin;
                        trip_complete := complete;
                        trip_deadline := deadline |}, l)
      end
  end.

(** ** Calling [Trip] *)

(** The parameters with their defaults; [None] here marks a parameter
    without default. *)
Definition Trip_parameters : list (parameter * option value) :=
  [(p_network, None); (p_start, None); (p_end, None);
   (p_available, Some VNone); (p_deadline, Some VNone);
   (p_begin, Some VNone); (p_complete, Some VNone); (p_path, Some VNone)].

(** Positional arguments fill the parameters from the first on. *)
Fixpoint fill_positional (params : list (parameter * option value))
    (positional : list value)
    : option (list (parameter * option value * option value)) :=
  match params, positional with
  | [], [] => Some []
  | [], _ :: _ => None
  | (p, d) :: params', [] =>
      option_map (cons (p, d, None)) (fill_positional params' [])
  | (p, d) :: params', v :: positional' =>
      option_map (cons (p, d, Some v)) (fill_positional params' positional')
  end.

(** A keyword argument fills its parameter, which must be empty. *)
Fixpoint fill_keyword (slots : list (parameter * option value * option value))
    (name : parameter) (v : value)
    : option (list (parameter * option value * option value)) :=
  match slots with
  | [] => None
  | (p, d, filled) :: slots' =>
      if decide (p = name) then
        match filled with
        | Some _ => None
        | None => Some ((p, d, Some v) :: slots')
        end
      else option_map (cons (p, d, filled)) (fill_keyword slots' name v)
  end.

Fixpoint fill_keywords (slots : list (parameter * option value * option value))
    (keywords : list (parameter * value))
    : option (list (parameter * option value * option value)) :=
  match keywords with
  | [] => Some slots
  | (name, v) :: keywords' =>
      match fill_keyword slots name v with
      | Some slots' => fill_keywords slots' keywords'
      | None => None
      end
  end.

(** An empty parameter takes its default, and must have one. *)
Fixpoint fill_defaults (slots : list (parameter * option value * option value))
    : option (list value) :=
  match slots with
  | [] => Some []
  | (_, d, filled) :: slots' =>
      match (match filled with Some v => Some v | None => d end) with
      | Some v => option_map (cons v) (fill_defaults slots')
      | None => None
      end
  end.

(** The binding of the arguments of a call to the parameters, as Python
    does it: [None] is [TypeError] (too many positional arguments, several
    values for one parameter, or a parameter without value). *)
Definition bind_arguments (params : list (parameter * option value))
    (positional : list value) (keywords : list (parameter * value))
    : option (list value) :=
  match fill_positional params positional with
  | Some slots =>
      match fill_keywords slots keywords with
      | Some slots' => fill_defaults slots'
      | None => None
      end
  | None => None
  end.

(** The call of [Trip] with positional and keyword arguments. The body
    runs when the arguments bind, with a graph and two nodes; [None] stands
    for a call whose body would meet other values, which is not modelled. *)
Definition Trip_call (positional : list value) (keywords : list (parameter * value))
    (l : list (call Loc)) : option (outcome Trip * list (call Loc)) :=
  match bind_arguments Trip_parameters positional keywords with
  | None => Some (Fails TypeError, l)
  | Some [VGraph network; VNode start; VNode end_;
          available; deadline; begin; complete; path] =>
      Some (Trip_init network start end_ available deadline begin complete path l)
  | Some _ => None
  end.

(** ** Traveller *)

Record Traveller : Type := {
  traveller_network : Network Loc;
  traveller_itinerary : list Trip
}.

(** The argument [trips]: [None], a list of tuples (each by its items), or
    anything that is no list. *)
Inductive trips_argument : Type :=
  | NoTrips
  | TripList (trips : list (list value))
  | NotAList.

(** Lines 82-83: the loop of [_add_trips], which calls
    [Trip(network=self.network, *trip)] for each trip and appends the
    result. *)
Fixpoint add_each (self : Traveller) (trips : list (list value))
    (l : list (call Loc)) : option (outcome Traveller * list (call Loc)) :=
  match trips with
  | [] => Some (Returns self, l)
  | trip :: trips' =>
      match Trip_call trip [(p_network, VGraph (traveller_network self))] l with
      | Some (Returns t, l') =>
          add_each {| traveller_network := traveller_network self;
                      traveller_itinerary := traveller_itinerary self ++ [t] |}
                   trips' l'
      | Some (Fails e, l') => Some (Fails e, l')
      | None => None
      end
  end.

(** [Traveller._add_trips], lines 75-83. *)
Definition Traveller_add_trips (self : Traveller) (list_of_trips : trips_argument)
    (l : list (call Loc)) : option (outcome Traveller * list (call Loc)) :=
  match list_of_trips with
  | TripList trips => add_each self trips l
  | NoTrips | NotAList => Some (Fails AssertionError, l)
  end.

(** [Traveller.__init__], lines 64-73. *)
Definition Traveller_init (network : Network Loc) (trips : trips_argument)
    (l : list (call Loc)) : option (outcome Traveller * list (call Loc)) :=
  let self := {| traveller_network := network; traveller_itinerary := [] |} in
  match trips with
  | NoTrips => Some (Returns self, l)
  | _ => Traveller_add_trips self trips l
  end.

(** ** Shuttle *)

Record Shuttle : Type := {
  shuttle_current_location : Loc;
  shuttle_stops : value;
  shuttle_itinerary : list Trip
}.

(** [Shuttle.__init__], lines 122-142. [nodes] stands for
    [network.nodes()], of the class [Graph] that is not part of the
    sources; [capacity] and [order] are parameters the body does not
    read. *)
Definition Shuttle_init (nodes : Network Loc → list Loc)
    (network : value) (start : Loc) (stops capacity order : value)
    : outcome Shuttle :=
  match network with
  | VGraph graph =>
      and_then (assert (contains graph start)) (λ _,
      and_then (assert (match stops with VSet _ => true | _ => false end)) (λ _,
      and_then (assert (match stops with
                        | VSet items => forallb (is_node graph) items
                        | _ => false (* not reached: the assertion before *)
                        end)) (λ _,
        let stops' := if is_None stops then VSet (VNode <$> nodes graph) else stops in
        Returns {| shuttle_current_location := start;
                   shuttle_stops := stops';
                   shuttle_itinerary := [] |})))
  | _ => Fails AssertionError
  end.

End classes.

Arguments value Loc : clear implicits.
Arguments Trip Loc : clear implicits.
Arguments Traveller Loc : clear implicits.
Arguments Shuttle Loc : clear implicits.
Arguments trips_argument Loc : clear implicits.

(** ** Properties of the classes *)

Section class_properties.

Context {Loc : Type} `{EqDecision Loc}.
Implicit Types (network : Network Loc) (start : Loc)
  (l : list (call Loc)) (v available deadline begin complete path : value Loc)
  (positional : list (value Loc)).

(** A parameter filled by position cannot be given by keyword too. *)
Lemma bind_first_twice (params : list (parameter * option (value Loc)))
    (d : option (value Loc)) v0 positional v :
  bind_arguments ((p_network, d) :: params) (v0 :: positional) [(p_network, v)]
  = None.
Proof.
  unfold bind_arguments. cbn [fill_positional].
  by destruct (fill_positional params positional).
Qed.

(** With [network] given by keyword, no list of positional arguments binds
    to the parameters of [Trip]: a first positional argument takes the
    parameter [network] too, and without one [start] has no value. *)
Lemma bind_with_network_keyword positional v :
  bind_arguments Trip_parameters positional [(p_network, v)] = None.
Proof.
  destruct positional as [|v0 positional]; [done|]. apply bind_first_twice.
Qed.

Lemma add_each_fails (self : Traveller Loc) trip trips l :
  add_each self (trip :: trips) l = Some (Fails TypeError, l).
Proof.
  cbn [add_each]. unfold Trip_call. by rewrite bind_with_network_keyword.
Qed.

(** The constructor of [Traveller] returns only without trips ([None] or
    the empty list), with an empty itinerary and without a call to the
    network: with a list that holds a trip, the call
    [Trip(network=self.network, *trip)] of [_add_trips] fails with
    [TypeError] for the first trip, whatever its items are, and with
    anything that is no list the assertion of [_add_trips] fails. The same
    three arguments given by position do reach the body of [Trip]. *)
Theorem traveller_takes_no_trip network (trips : trips_argument Loc) l :
  (∀ trip rest,
     Traveller_init network (TripList (trip :: rest)) l
     = Some (Fails TypeError, l))
  ∧ Traveller_init network NotAList l = Some (Fails AssertionError, l)
  ∧ (∀ t l', Traveller_init network trips l = Some (Returns t, l') →
             traveller_itinerary t = [] ∧ l' = l
             ∧ (trips = NoTrips ∨ trips = TripList []))
  ∧ (∀ start (end_ : Loc),
       Trip_call [VGraph network; VNode start; VNode end_] [] l
       = Some (Trip_init network start end_ VNone VNone VNone VNone VNone l)).
Proof.
  split_and!.
  - intros trip rest. apply add_each_fails.
  - done.
  - intros t l'. destruct trips as [|[|trip rest]|]; simpl.
    + intros [= <- <-]. auto.
    + intros [= <- <-]. auto.
    + unfold Trip_call. by rewrite bind_with_network_keyword.
    + done.
  - done.
Qed.

(** [Trip.__init__] fails with [AssertionError], before any call to the
    network, exactly when [start] or [end] is not in the network.
    Otherwise, with a path given it returns without a call and keeps the
    path; without one it asks the network once for the shortest path, fails
    with the exception of the network if that raises, and else keeps the
    pair (distance, path) the network returned as its [path]. The other
    arguments become the attributes of their names. *)
Theorem trip_init_checks_endpoints network start (end_ : Loc)
    available deadline begin complete path l :
  let r := Trip_init network start end_ available deadline begin complete path l in
  (r = (Fails AssertionError, l)
   ↔ contains network start = false ∨ contains network end_ = false)
  ∧ (contains network start = true → contains network end_ = true →
     (∀ t, r.1 = Returns t →
           trip_start t = start ∧ trip_end t = end_
           ∧ trip_available t = available ∧ trip_deadline t = deadline
           ∧ trip_begin t = begin ∧ trip_complete t = complete)
     ∧ (is_None path = false →
        r.2 = l ∧ ∃ t, r.1 = Returns t ∧ trip_path t = path)
     ∧ (is_None path = true →
        r.2 = l ++ [ShortestPath start end_]
        ∧ match shortest_path network start end_ with
          | Ok dp => ∃ t, r.1 = Returns t ∧ trip_path t = pair_value dp
          | Raise e => r.1 = Fails (FromNetwork e)
          end)).
Proof.
  intros r. subst r. unfold Trip_init, assert.
  destruct (contains network start), (contains network end_); simpl.
  - split.
    + split; [|by intros [?|?]].
      destruct (is_None path); [|done].
      by destruct (shortest_path network start end_).
    + intros _ _. split_and!.
      * intros t. destruct (is_None path).
        -- destruct (shortest_path network start end_); [|done].
           by intros [= <-].
        -- by intros [= <-].
      * intros ->. split; [done|]. by eexists.
      * intros ->. destruct (shortest_path network start end_); [|done].
        split; [done|]. by eexists.
  - split; [|done]. split; [by right|done].
  - split; [|done]. split; [by left|done].
  - split; [|done]. split; [by left|done].
Qed.

(** The constructor of [Shuttle] returns exactly when [network] is a graph,
    [start] is in it and [stops] is a set of nodes of it; the shuttle then
    stands at [start] with the stops as given and an empty itinerary. With
    [stops] left at its default [None] it fails, as every failure with
    [AssertionError]: the branch that would take all the nodes of the
    network is never reached, and [network.nodes()], [capacity] and [order]
    have no influence. *)
Theorem shuttle_init_needs_a_set_of_stops (nodes : Network Loc → list Loc)
    (net : value Loc) start (stops capacity order : value Loc) :
  Shuttle_init nodes net start VNone capacity order = Fails AssertionError
  ∧ (∀ sh, Shuttle_init nodes net start stops capacity order = Returns sh
           ↔ ∃ graph items,
               net = VGraph graph ∧ contains graph start = true
               ∧ stops = VSet items ∧ forallb (is_node graph) items = true
               ∧ sh = {| shuttle_current_location := start;
                         shuttle_stops := stops;
                         shuttle_itinerary := [] |})
  ∧ (∀ e, Shuttle_init nodes net start stops capacity order = Fails e →
          e = AssertionError)
  ∧ (∀ nodes' capacity' order',
       Shuttle_init nodes' net start stops capacity' order'
       = Shuttle_init nodes net start stops capacity order).
Proof.
  split_and!.
  - destruct net; try done. simpl. unfold assert.
    by destruct (contains graph start).
  - intros sh. split.
    + destruct net as [| | |graph| | |]; try done. simpl. unfold assert.
      destruct (contains graph start) eqn:Hstart; [|done]. simpl.
      destruct stops as [| | | | | |items]; try done. simpl.
      destruct (forallb (is_node graph) items) eqn:Hall; [|done]. simpl.
      intros [= <-]. by exists graph, items.
    + intros (graph & items & -> & Hstart & -> & Hall & ->).
      simpl. unfold assert. rewrite Hstart. simpl. by rewrite Hall.
  - intros e. destruct net as [| | |graph| | |]; try (by intros [= <-]).
    simpl. unfold assert. destruct (contains graph start); [|by intros [= <-]].
    simpl. destruct stops as [| | | | | |items]; try (by intros [= <-]).
    simpl. destruct (forallb (is_node graph) items); [done|by intros [= <-]].
  - intros nodes' capacity' order'. destruct net as [| | |graph| | |]; try done.
    simpl. unfold assert. destruct (contains graph start); [|done]. simpl.
    destruct stops as [| | | | | |items]; try done.
Qed.

End class_properties.

(** ** The list that [schedule] returns *)

Section returned_list.

Context {Loc : Type} `{EqDecision Loc}.
Implicit Types (graph : Network Loc) (start : Loc) (h : Heap Loc)
  (l : list (call Loc)).

(** When [schedule], called with a list of jobs the caller holds, returns,
    it returns the list [new_schedule], an object created by the call that
    the caller did not hold before, so not the list of jobs it was given;
    the working copy [jobs_to_plan] is empty then, and the configuration
    does not change any more. *)
Theorem schedule_returns_new_list graph start (jobs : ref) h l n r :
  jobs < length h →
  pc (schedule graph start jobs h l n) = Returned r →
  r = new_schedule (schedule_frame jobs h)
  ∧ r ≠ jobs
  ∧ h !! r = None
  ∧ load (heap (schedule graph start jobs h l n))
         (jobs_to_plan (schedule_frame jobs h)) = []
  ∧ ∀ m, schedule graph start jobs h l (n + m) = schedule graph start jobs h l n.
Proof.
  intros Hjobs Hpc.
  destruct (schedule_assembling graph start jobs h l n) as (sp & Hheap & _ & Hret).
  destruct (Hret r Hpc) as [-> Hpool].
  rewrite schedule_frame_of. cbn [new_schedule jobs_to_plan frame_of].
  split_and!.
  - done.
  - lia.
  - by apply lookup_ge_None_2.
  - by rewrite Hheap, load_jobs_to_plan.
  - intros m. rewrite !schedule_run, run_plus. apply final_run.
    rewrite <-schedule_run. unfold final. by rewrite Hpc.
Qed.

End returned_list.

Module ClassChecks.

Import Example.

Lemma schedule_returns_new_list_witness :
  1 = new_schedule (schedule_frame 0 (only legs))
  ∧ 1 ≠ 0
  ∧ only legs !! 1 = None
  ∧ load (heap (schedule triangle A 0 (only legs) [] 9))
         (jobs_to_plan (schedule_frame 0 (only legs))) = [].
Proof.
  destruct (schedule_returns_new_list triangle A 0 (only legs) [] 9 1)
    as (Hnew & Hne & Hfresh & Hpool & _).
  - vm_compute. lia.
  - vm_compute. reflexivity.
  - split; [exact Hnew|]. split; [exact Hne|]. split; [exact Hfresh|exact Hpool].
Defined.

End ClassChecks.

(** * The fallback when no ordering has a finite distance *)

Section fallback_selection.

Context {Loc : Type} `{EqDecision Loc}.
Implicit Types (graph : Network Loc) (start : Loc) (l : list (call Loc))
  (pending seq perm : list (Loc * Loc)).

(** When the fallback completes and some ordering of the pending jobs has
    a distance below [float('inf')], the fallback yields the jobs of the
    path of one of the orderings: the first, in the order of
    [itertools.permutations], whose distance is the least; the distance of
    every ordering is at least as large, and that of every ordering before
    the selected one strictly larger. *)
Theorem fallback_selects_first_shortest_when_finite
    graph start pending l seq l' perm d0 :
  permutation_fallback graph start pending l = (Ok seq, l') →
  perm ≡ₚ pending →
  distance_from_path graph (path_from_schedule perm start) = Ok d0 →
  is_finite d0 = true →
  ∃ d before selected after,
    itertools.permutations pending = before ++ selected :: after
    ∧ seq = jobs_from_path (path_from_schedule selected start)
    ∧ distance_from_path graph (path_from_schedule selected start) = Ok d
    ∧ (∀ q, q ≡ₚ pending →
         ∃ d', distance_from_path graph (path_from_schedule q start) = Ok d'
               ∧ number_leb d d' = true)
    ∧ (∀ q, q ∈ before →
         ∃ d', distance_from_path graph (path_from_schedule q start) = Ok d'
               ∧ number_ltb d d' = true).
Proof.
  intros Hfall Hperm Hd0 Hfin.
  destruct (fallback_selects_first_shortest _ _ _ _ _ _ Hfall)
    as (d & p & -> & Hall & Hsel).
  destruct Hsel as [[-> ->]|(before & selected & after & Hperms & -> & Hd & Hbefore)].
  - destruct (Hall perm Hperm) as (d' & Hd' & Hle).
    rewrite Hd0 in Hd'. injection Hd' as <-. by destruct d0.
  - exists d, before, selected, after. by split_and!.
Qed.

End fallback_selection.

Module FallbackChecks.

Import Example.

(** C5, the code at the failing input: on the network with the one edge
    [A -> B], started at [C] with the job [(A, B)] pending, the fallback
    runs over the one ordering, whose path [C, A, B] has the distance
    [float('inf')]; that ordering achieves the minimum, yet the strict test
    selects nothing: the path kept is the empty list, which is the path of
    no ordering, and the job sequence is empty. *)
Theorem one_way_fallback_selects_nothing :
  itertools.permutations [(A, B)] = [[(A, B)]]
  ∧ distance_from_path one_way (path_from_schedule [(A, B)] C) = Ok Inf
  ∧ evaluate one_way C (itertools.permutations [(A, B)]) Inf [] []
    = (Ok (Inf, []), [DistanceFromPath [C; A; B]])
  ∧ permutation_fallback one_way C [(A, B)] []
    = (Ok [], [DistanceFromPath [C; A; B]])
  ∧ ∀ perm, perm ∈ itertools.permutations [(A, B)] →
            path_from_schedule perm C ≠ [].
Proof.
  split_and!; [by vm_compute..|].
  intros perm Hperm Hnil.
  pose proof (path_from_schedule_head perm C) as Hhead.
  by rewrite Hnil in Hhead.
Qed.

(** C10, the claim as stated fails: no pending job leaves [C], yet
    [find_perfect_circuit] does not return the empty list, since the
    network raises [NoPath] for the job [(B, A)] while the auxiliary graph
    is built. *)
Lemma raising_network_returns_no_path :
  (∀ job, job ∈ [(B, A)] → job.1 ≠ C)
  ∧ find_perfect_circuit one_way C [(B, A)] []
    = (Raise NoPath, [ShortestPath B A])
  ∧ find_perfect_circuit one_way C [(B, A)] [] ≠ (Ok [], [ShortestPath B A]).
Proof.
  split_and!; [|by vm_compute..].
  by intros job ->%list_elem_of_singleton.
Qed.

Lemma fallback_selects_first_shortest_when_finite_witness :
  ∃ d before selected after,
    itertools.permutations [(A, B); (C, A)] = before ++ selected :: after
    ∧ [(B, C); (C, A); (A, B)] = jobs_from_path (path_from_schedule selected B)
    ∧ distance_from_path triangle (path_from_schedule selected B) = Ok d.
Proof.
  destruct (fallback_selects_first_shortest_when_finite triangle B
              [(A, B); (C, A)] [] [(B, C); (C, A); (A, B)]
              [DistanceFromPath [B; A; B; C; A]; DistanceFromPath [B; C; A; B]]
              [(A, B); (C, A)] (Fin 4))
    as (d & before & selected & after & Hperms & Hseq & Hd & _).
  - vm_compute. reflexivity.
  - reflexivity.
  - vm_compute. reflexivity.
  - reflexivity.
  - exists d, before, selected, after. split; [exact Hperms|].
    split; [exact Hseq|exact Hd].
Defined.

End FallbackChecks.
